(** * flashlight/feed: retrieval and normalization of the public feed

    A shallow embedding of [feed.go].  The package keeps one process-wide
    variable [feed *Feed]; every function below is a computation over a
    state that holds that variable, the list of values it has taken, and the
    calls made to the collaborators (UI provider, retriever, logger,
    geolocation).  Go run-time panics (nil dereference, index out of range,
    failed type assertion, write to a nil map) are explicit outcomes. *)

From Stdlib Require Import ZArith Ascii String.
From stdpp Require Import gmap strings list fin_maps.

Open Scope string_scope.
Open Scope list_scope.
Set Warnings "-register-all".

(** ** Data model *)

(** A Go pointer [*T]: [None] is [nil]. *)
Abbreviation ptr := option (only parsing).

(** A value of type [interface{}] as [encoding/json] produces it: [nil] for
    JSON null, otherwise a bool, a float64 (kept as its literal), a string,
    a slice or a map. *)
Inductive iface : Type :=
  | inil
  | ibool (b : bool)
  | ifloat64 (literal : string)
  | istring (s : string)
  | islice (l : list iface)
  | imap (m : list (string * iface)).

Module Source.
Record t : Type := mk {
  FeedUrl : string;
  Title : string;
  Url : string;
  ExcludeFromAll : bool;
  Entries : list Z
}.
End Source.

Module FeedItem.
Record t : Type := mk {
  Title : string;
  Link : string;
  Image : string;
  Meta : gmap string iface;
  Content : string;
  Source : string;
  Description : string
}.

Definition withDescription (e : t) (desc : string) : t :=
  mk (Title e) (Link e) (Image e) (Meta e) (Content e) (Source e) desc.
End FeedItem.

(** [type FeedItems []*FeedItem] *)
Abbreviation FeedItems := (list (ptr FeedItem.t)) (only parsing).

Module Feed.
Record t : Type := mk {
  Feeds : gmap string (ptr Source.t);
  Entries : FeedItems;
  (** [Items] is the only map that is written to, so a nil map ([None])
      is kept apart from an empty one.  Its buckets hold the pointers of
      [Entries]; nothing is written through a pointer once the buckets are
      being filled, so a bucket is kept as the list of the entries it
      points to. *)
  Items : option (gmap string FeedItems);
  Sorted : list string
}.

(** [&Feed{}] *)
Definition zero : t := mk ∅ [] None [].

Definition withEntries (f : t) (es : FeedItems) : t :=
  mk (Feeds f) es (Items f) (Sorted f).
Definition withItems (f : t) (items : option (gmap string FeedItems)) : t :=
  mk (Feeds f) (Entries f) items (Sorted f).
End Feed.

(** Values of Go's [error] interface: an error of a collaborator, or one
    wrapped by [fmt.Errorf(format, err)]. *)
Inductive error : Type :=
  | ExternalError (msg : string)
  | Errorf (format : string) (cause : error).

Inductive Result (A : Type) : Type :=
  | Success (a : A)
  | Failure (err : error).
Arguments Success {A} a.
Arguments Failure {A} err.

(** [*http.Request] as far as this package touches it. *)
Record Request : Type := mkRequest {
  Method : string;
  URL : string;
  Header : list (string * string)
}.

Definition HeaderAdd (req : Request) (key value : string) : Request :=
  mkRequest (Method req) (URL req) (Header req ++ [(key, value)]).

(** ** Collaborators *)

Inductive LogArg : Type :=
  | LInt (n : Z)
  | LStr (s : string).

(** What the package does to the outside, in the order it does it: calls to
    the UI collaborators and the logger, the geolocation lookup, the HTTP
    round trip and the release of the response body. *)
Inductive Event : Type :=
  | EvAddSource (title : string)
  | EvAddFeed (title description image link : string)
  | EvDebugf (format : string) (args : list LogArg)
  | EvErrorf (format : string) (args : list LogArg)
  | EvError (err : error)
  | EvGetCountry (timeout : Z)
  | EvDo (req : Request)
  | EvBodyClose.

(** The Go library and the services the package consumes.  Their code is not
    part of the package, so they are parameters; the two laws are the facts
    about them that the package relies on. *)
Class Externals : Type := {
  (** [strings.TrimSpace] *)
  TrimSpace : string → string;
  (** [strings.EqualFold] *)
  EqualFold : string → string → bool;
  EqualFold_refl : ∀ s, EqualFold s s = true;
  (** [fmt.Sprintf(format, arg)] with one string argument *)
  Sprintf : string → string → string;
  (** [geolookup.GetCountry(timeout)]; the empty string is a failed lookup *)
  GetCountry : Z → string;
  (** the order in which the one [range] loop over a map of a run of
      [processFeed] visits it; Go leaves it unspecified and chooses it anew
      at every loop, so a second run is a run in a world that may differ
      from the first in this ([reordered]) *)
  rangeFeeds : gmap string (ptr Source.t) → list (string * ptr Source.t);
  rangeFeeds_perm : ∀ m, rangeFeeds m ≡ₚ map_to_list m;
  Client : Type;
  Response : Type;
  GzReader : Type;
  (** [http.NewRequest(method, url, nil)] *)
  NewRequest : string → string → Result Request;
  (** [&http.Client{}] *)
  directClient : Client;
  (** [util.HTTPClient("", eventual.DefaultGetter(proxyAddr))] *)
  HTTPClient : string → Result Client;
  (** [httpClient.Do(req)] *)
  Do : Client → Request → Result Response;
  (** [gzip.NewReader(res.Body)] *)
  NewReader : Response → Result GzReader;
  (** [ioutil.ReadAll(gzReader)] *)
  ReadAll : GzReader → Result (list Byte.byte);
  (** [json.Unmarshal(contents, feed)]: decodes into the document that
      [feed] points to, and may have written part of it when it fails *)
  Unmarshal : list Byte.byte → Feed.t → Feed.t * option error
}.

(** The world [E] with the maps visited in another order. *)
Definition reordered (E : Externals)
    (order : gmap string (ptr Source.t) → list (string * ptr Source.t))
    (lawful : ∀ m, order m ≡ₚ map_to_list m) : Externals := {|
  TrimSpace := @TrimSpace E;
  EqualFold := @EqualFold E;
  EqualFold_refl := @EqualFold_refl E;
  Sprintf := @Sprintf E;
  GetCountry := @GetCountry E;
  rangeFeeds := order;
  rangeFeeds_perm := lawful;
  Client := @Client E;
  Response := @Response E;
  GzReader := @GzReader E;
  NewRequest := @NewRequest E;
  directClient := @directClient E;
  HTTPClient := @HTTPClient E;
  Do := @Do E;
  NewReader := @NewReader E;
  ReadAll := @ReadAll E;
  Unmarshal := @Unmarshal E
|}.

(** ** State and panics *)

Record State : Type := mkState {
  (** the package variable [feed *Feed], with the document it points to *)
  feed : ptr Feed.t;
  (** every value [feed] has been given, oldest first: what a reader that
      runs between two statements of the writer can see *)
  history : list (ptr Feed.t);
  (** calls to the collaborators, oldest first *)
  trace : list Event
}.

Inductive Fault : Type :=
  | NilDereference
  | IndexOutOfRange (i : Z) (len : nat)
  | TypeAssertion (v : iface)
  | NilMapAssignment.

Inductive Outcome (A : Type) : Type :=
  | Ok (a : A) (s : State)
  | Panic (f : Fault) (s : State).
Arguments Ok {A} a s.
Arguments Panic {A} f s.

Definition M (A : Type) : Type := State → Outcome A.

#[global] Instance M_ret : MRet M := λ A a s, Ok a s.
#[global] Instance M_bind : MBind M := λ A B k m s,
  match m s with
  | Ok a s' => k a s'
  | Panic f s' => Panic f s'
  end.

Definition panic {A} (f : Fault) : M A := λ s, Panic f s.

Definition finalState {A} (o : Outcome A) : State :=
  match o with
  | Ok _ s => s
  | Panic _ s => s
  end.

Definition isOk {A} (o : Outcome A) : bool :=
  match o with
  | Ok _ _ => true
  | Panic _ _ => false
  end.

Definition emit (e : Event) : M unit :=
  λ s, Ok tt (mkState (feed s) (history s) (trace s ++ [e])).

(** An assignment to [feed], or through it. *)
Definition setFeed (v : ptr Feed.t) : M unit :=
  λ s, Ok tt (mkState v (history s ++ [v]) (trace s)).

(** [feed] as a pointer value. *)
Definition readFeed : M (ptr Feed.t) := λ s, Ok (feed s) s.

(** [*p] *)
Definition deref {A} (p : ptr A) : M A :=
  match p with
  | Some a => mret a
  | None => panic NilDereference
  end.

(** [*feed] *)
Definition getFeed : M Feed.t := p ← readFeed; deref p.

(** [l[i]] with Go's bounds check. *)
Definition index {A} (l : list A) (i : Z) : M A :=
  match (if (0 <=? i)%Z then l !! Z.to_nat i else None) with
  | Some a => mret a
  | None => panic (IndexOutOfRange i (length l))
  end.

Fixpoint forEach {A} (l : list A) (body : A → M unit) : M unit :=
  match l with
  | [] => mret tt
  | a :: l' => body a;; forEach l' body
  end.

(** [defer res.Body.Close()]: runs when the function leaves, also when it
    leaves by a panic. *)
Definition deferBodyClose {A} (m : M A) : M A := λ s,
  match m s with
  | Ok a s' => Ok a (mkState (feed s') (history s') (trace s' ++ [EvBodyClose]))
  | Panic f s' => Panic f (mkState (feed s') (history s') (trace s' ++ [EvBodyClose]))
  end.

(** ** The package *)

Definition defaultFeedEndpoint : string := "https://feeds.getiantem.org/%s/feed.json".
Definition en : string := "en_US".

(** One second as a [time.Duration] (nanoseconds). *)
Definition Second : Z := 1000000000.

Definition supportedLocales : gmap string bool :=
  {[ "en_US" := true; "fa_IR" := true; "fa" := true; "ms_MY" := true; "zh_CN" := true ]}.

(** [supportedLocales[locale]]: a missing key reads as [false]. *)
Definition isSupported (locale : string) : bool :=
  default false (supportedLocales !! locale).

Section Package.
Context `{Ext : Externals}.

Definition CurrentFeed : M (ptr Feed.t) := readFeed.

Definition NumFeedEntries : M nat :=
  f ← getFeed;
  let count := length (Feed.Entries f) in
  emit (EvDebugf "Number of feed entries: %d" [LInt (Z.of_nat count)]);;
  mret count.

Definition FeedByName (name : string) : M unit :=
  p ← readFeed;
  match p with
  | Some f =>
      match Feed.Items f with
      | Some m =>
          match m !! name with
          | Some items =>
              forEach items (λ p,
                i ← deref p;
                emit (EvAddFeed (FeedItem.Title i) (FeedItem.Description i)
                        (FeedItem.Image i) (FeedItem.Link i)))
          | None => mret tt
          end
      | None => mret tt
      end
  | None => mret tt
  end.

Definition handleError (err : error) : M unit :=
  setFeed None;;
  emit (EvError err).

Definition determineLocale (defaultLocale : string) : M string :=
  let defaultLocale := if decide (defaultLocale = "") then en else defaultLocale in
  if negb (EqualFold en defaultLocale) then mret defaultLocale
  else
    emit (EvGetCountry (10 * Second));;
    let country := GetCountry (10 * Second) in
    if decide (country = "") then
      emit (EvDebugf "Could not lookup country" []);;
      mret defaultLocale
    else if EqualFold "ir" country then mret "fa_IR"
    else if EqualFold "my" country then mret "ms_MY"
    else mret defaultLocale.

Definition getFeedURL (feedEndpoint defaultLocale : string) : M string :=
  locale ← determineLocale defaultLocale;
  let url := Sprintf feedEndpoint locale in
  emit (EvDebugf "Returning feed URL: %v" [LStr url]);;
  mret url.

Definition GetFeedURL (defaultLocale : string) : M string :=
  getFeedURL defaultFeedEndpoint defaultLocale.

(** Lines 193-203: the description of the entry at index [i]. *)
Definition describeEntry (i : nat) : M unit :=
  f ← getFeed;
  p ← index (Feed.Entries f) (Z.of_nat i);
  entry ← deref p;
  desc ← match default inil (FeedItem.Meta entry !! "description") with
         | inil => mret ""
         | istring s => mret (TrimSpace s)
         | v => panic (TypeAssertion v)
         end;
  let desc := if decide (desc = "") then FeedItem.Content entry else desc in
  f ← getFeed;
  p ← index (Feed.Entries f) (Z.of_nat i);
  e ← deref p;
  setFeed (Some (Feed.withEntries f
                   (<[i := Some (FeedItem.withDescription e desc)]> (Feed.Entries f)))).

(** Lines 207-212: the entries of the "all" tab, [all] being the slice
    built so far. *)
Fixpoint collectAll (entries all : FeedItems) : M FeedItems :=
  match entries with
  | [] => mret all
  | p :: rest =>
      entry ← deref p;
      f ← getFeed;
      source ← deref (default None (Feed.Feeds f !! FeedItem.Source entry));
      if negb (Source.ExcludeFromAll source) then collectAll rest (all ++ [p])
      else collectAll rest all
  end.

(** [feed.Items[key] = items] *)
Definition assignItems (key : string) (items : FeedItems) : M unit :=
  f ← getFeed;
  match Feed.Items f with
  | Some m => setFeed (Some (Feed.withItems f (Some (<[key := items]> m))))
  | None => panic NilMapAssignment
  end.

(** [feed.Items[key]]: reading a missing key, or a nil map, gives a nil
    slice. *)
Definition readItems (key : string) : M FeedItems :=
  f ← getFeed;
  mret (default [] (m ← Feed.Items f; m !! key)).

(** Lines 216-227, one key of [feed.Sorted]. *)
Definition announceSource (source : string) : M unit :=
  f ← getFeed;
  match Feed.Feeds f !! source with
  | Some p =>
      entry ← deref p;
      if negb (bool_decide (Source.Title entry = "")) then
        emit (EvDebugf "Adding feed source: %s" [LStr (Source.Title entry)]);;
        emit (EvAddSource (Source.Title entry))
      else
        emit (EvErrorf "Skipping feed source: %s; missing title" [LStr source])
  | None =>
      emit (EvErrorf "Couldn't add feed: %s; missing from map" [LStr source])
  end.

(** Lines 231-234: the entry at index [i] goes to the end of the bucket
    of the source's title. *)
Definition appendEntry (title : string) (i : Z) : M unit :=
  f ← getFeed;
  entry ← index (Feed.Entries f) i;
  items ← readItems title;
  assignItems title (items ++ [entry]).

(** Lines 229-236, one source of [feed.Feeds]. *)
Definition indexSource (p : ptr Source.t) : M unit :=
  s ← deref p;
  forEach (Source.Entries s) (appendEntry (Source.Title s)).

Definition processFeed (allStr : string) : M unit :=
  f ← getFeed;
  emit (EvDebugf "Num of Feed Entries: %v" [LInt (Z.of_nat (length (Feed.Entries f)))]);;
  f ← getFeed;
  setFeed (Some (Feed.withItems f (Some ∅)));;
  f ← getFeed;
  forEach (seq 0 (length (Feed.Entries f))) describeEntry;;
  f ← getFeed;
  all ← collectAll (Feed.Entries f) [];
  assignItems allStr all;;
  f ← getFeed;
  forEach (Feed.Sorted f) announceSource;;
  f ← getFeed;
  forEach (rangeFeeds (Feed.Feeds f)) (λ kv, indexSource kv.2).

Definition doGetFeed (feedEndpoint locale allStr proxyAddr : string) : M unit :=
  setFeed (Some Feed.zero);;
  let locale := if negb (isSupported locale) then en else locale in
  feedURL ← getFeedURL feedEndpoint locale;
  match NewRequest "GET" feedURL with
  | Failure err => handleError (Errorf "Error fetching feed: %v" err)
  | Success req =>
      let req := HeaderAdd req "Accept-Encoding" "gzip" in
      match (if decide (proxyAddr = "") then Success directClient
             else HTTPClient proxyAddr) with
      | Failure err => handleError (Errorf "Error creating client: %v" err)
      | Success httpClient =>
          emit (EvDo req);;
          match Do httpClient req with
          | Failure err => handleError (Errorf "Error fetching feed: %v" err)
          | Success res =>
              deferBodyClose (
                match NewReader res with
                | Failure err => handleError (Errorf "Unable to open gzip reader: %s" err)
                | Success gzReader =>
                    match ReadAll gzReader with
                    | Failure err => handleError (Errorf "Error reading feed: %v" err)
                    | Success contents =>
                        f ← getFeed;
                        let (f', err) := Unmarshal contents f in
                        setFeed (Some f');;
                        match err with
                        | Some err => handleError (Errorf "Error parsing feed: %v" err)
                        | None => processFeed allStr
                        end
                    end
                end)
          end
      end
  end.

Definition GetFeed (locale allStr proxyAddr : string) : M unit :=
  doGetFeed defaultFeedEndpoint locale allStr proxyAddr.

End Package.

(** ** Observing a run *)

(** The state of a process that has not fetched anything yet. *)
Definition initial : State := mkState None [] [].

(** The fault a computation ended with, if it did. *)
Definition faultOf {A} (o : Outcome A) : option Fault :=
  match o with
  | Ok _ _ => None
  | Panic f _ => Some f
  end.

(** The calls to [provider.AddSource] in a trace, in order. *)
Definition addSourceCalls (tr : list Event) : list string :=
  omap (λ e, match e with EvAddSource title => Some title | _ => None end) tr.

(** What a run leaves behind.

    No function of the package rewrites the past: every run only adds to
    the values [feed] has taken and to the calls made. *)

Definition extends (s s' : State) : Prop :=
  history s `prefix_of` history s' ∧ trace s `prefix_of` trace s'.

Definition extending {A} (m : M A) : Prop :=
  ∀ s, extends s (finalState (m s)).


(** ** What normalization computes

    The document [processFeed] leaves behind, as pure functions of the parsed
    document, and the conditions under which it runs to its end. *)

(** Lines 195-197 run through on this entry: it is there, and its
    [meta["description"]] is absent, null or a string. *)
Definition describable (p : ptr FeedItem.t) : bool :=
  match p with
  | Some e =>
      match default inil (FeedItem.Meta e !! "description") with
      | inil | istring _ => true
      | _ => false
      end
  | None => false
  end.

(** Line 209 runs through on this entry: its [Source] is a key of [Feeds],
    and the pointer stored there is not nil. *)
Definition resolves (feeds : gmap string (ptr Source.t)) (p : ptr FeedItem.t) : bool :=
  match p with
  | Some e =>
      match feeds !! FeedItem.Source e with
      | Some (Some _) => true
      | _ => false
      end
  | None => false
  end.

(** The entry belongs in the "all" tab. *)
Definition included (feeds : gmap string (ptr Source.t)) (p : ptr FeedItem.t) : bool :=
  match p with
  | Some e =>
      match feeds !! FeedItem.Source e with
      | Some (Some src) => negb (Source.ExcludeFromAll src)
      | _ => false
      end
  | None => false
  end.

Definition inRange (entries : FeedItems) (i : Z) : bool :=
  (0 <=? i)%Z && (i <? Z.of_nat (length entries))%Z.

(** Lines 230-231 run through on this source. *)
Definition sourceOK (entries : FeedItems) (p : ptr Source.t) : bool :=
  match p with
  | Some src => forallb (inRange entries) (Source.Entries src)
  | None => false
  end.

(** Line 218 runs through on this key of [Sorted]: it is not the key of a
    nil pointer. *)
Definition listable (feeds : gmap string (ptr Source.t)) (key : string) : bool :=
  match feeds !! key with
  | Some None => false
  | _ => true
  end.

(** The documents on which [processFeed] runs to its end. *)
Definition wellFormed (f : Feed.t) : bool :=
  forallb describable (Feed.Entries f)
  && forallb (resolves (Feed.Feeds f)) (Feed.Entries f)
  && forallb (λ kv, sourceOK (Feed.Entries f) kv.2) (map_to_list (Feed.Feeds f)).

(** [l[i]] where the index is known to be in range. *)
Definition pick (entries : FeedItems) (i : Z) : ptr FeedItem.t :=
  default None (entries !! Z.to_nat i).

(** [feed.Items[title] = append(feed.Items[title], l...)], one element at a
    time: nothing is written when there is nothing to append. *)
Definition appendItems (m : gmap string FeedItems) (title : string) (l : FeedItems)
    : gmap string FeedItems :=
  match l with
  | [] => m
  | _ => <[title := default [] (m !! title) ++ l]> m
  end.

Definition sourceStep (entries : FeedItems) (m : gmap string FeedItems)
    (kv : string * ptr Source.t) : gmap string FeedItems :=
  match kv.2 with
  | Some src => appendItems m (Source.Title src) (pick entries <$> Source.Entries src)
  | None => m
  end.

Section Derived.
Context `{Ext : Externals}.

Definition derivedDescription (e : FeedItem.t) : string :=
  match FeedItem.Meta e !! "description" with
  | Some (istring s) =>
      if decide (TrimSpace s = "") then FeedItem.Content e else TrimSpace s
  | _ => FeedItem.Content e
  end.

Definition described (e : FeedItem.t) : FeedItem.t :=
  FeedItem.withDescription e (derivedDescription e).

Definition describedPtr (p : ptr FeedItem.t) : ptr FeedItem.t :=
  described <$> p.

Definition normalEntries (f : Feed.t) : FeedItems :=
  describedPtr <$> Feed.Entries f.

Definition allBucket (f : Feed.t) : FeedItems :=
  filter (λ p, included (Feed.Feeds f) p = true) (normalEntries f).

Definition normalItems (allStr : string) (f : Feed.t) : gmap string FeedItems :=
  foldl (sourceStep (normalEntries f)) {[allStr := allBucket f]}
    (rangeFeeds (Feed.Feeds f)).

Definition normalForm (allStr : string) (f : Feed.t) : Feed.t :=
  Feed.mk (Feed.Feeds f) (normalEntries f) (Some (normalItems allStr f)) (Feed.Sorted f).

(** What lines 216-227 do for one key of [Sorted]. *)
Definition announcement (feeds : gmap string (ptr Source.t)) (key : string)
    : list Event :=
  match feeds !! key with
  | Some (Some src) =>
      if decide (Source.Title src = "")
      then [EvErrorf "Skipping feed source: %s; missing title" [LStr key]]
      else [EvDebugf "Adding feed source: %s" [LStr (Source.Title src)];
            EvAddSource (Source.Title src)]
  | Some None => []
  | None => [EvErrorf "Couldn't add feed: %s; missing from map" [LStr key]]
  end.

(** The state in which the last loop of [processFeed] starts. *)
Definition beforeIndexing (allStr : string) (f : Feed.t) : Feed.t :=
  Feed.mk (Feed.Feeds f) (normalEntries f) (Some {[allStr := allBucket f]})
    (Feed.Sorted f).

Definition processFeedTrace (f : Feed.t) : list Event :=
  EvDebugf "Num of Feed Entries: %v" [LInt (Z.of_nat (length (Feed.Entries f)))]
  :: concat (announcement (Feed.Feeds f) <$> Feed.Sorted f).

(** What [determineLocale] returns and what it calls; neither depends on
    the state it is run in. *)
Definition chosenLocale (defaultLocale : string) : string :=
  match determineLocale defaultLocale initial with
  | Ok locale _ => locale
  | Panic _ _ => ""
  end.

Definition localeEvents (defaultLocale : string) : list Event :=
  trace (finalState (determineLocale defaultLocale initial)).

(** The URL [getFeedURL] builds. *)
Definition feedURLOf (feedEndpoint defaultLocale : string) : string :=
  Sprintf feedEndpoint (chosenLocale defaultLocale).

(** The request as it goes out (lines 138-144). *)
Definition requestOf (req : Request) : Request :=
  HeaderAdd req "Accept-Encoding" "gzip".

(** The client of lines 146-154. *)
Definition clientFor (proxyAddr : string) : Result Client :=
  if decide (proxyAddr = "") then Success directClient else HTTPClient proxyAddr.

(** The failures of the fetch of [url] through [proxyAddr], in the order
    in which the pipeline can meet them. *)
Inductive FetchFailure (url proxyAddr : string) : Prop :=
  | RequestFailed err :
      NewRequest "GET" url = Failure err →
      FetchFailure url proxyAddr
  | ClientFailed req err :
      NewRequest "GET" url = Success req →
      proxyAddr ≠ "" → HTTPClient proxyAddr = Failure err →
      FetchFailure url proxyAddr
  | TransportFailed req client err :
      NewRequest "GET" url = Success req →
      clientFor proxyAddr = Success client →
      Do client (requestOf req) = Failure err →
      FetchFailure url proxyAddr
  | GzipFailed req client res err :
      NewRequest "GET" url = Success req →
      clientFor proxyAddr = Success client →
      Do client (requestOf req) = Success res →
      NewReader res = Failure err →
      FetchFailure url proxyAddr
  | ReadFailed req client res gzReader err :
      NewRequest "GET" url = Success req →
      clientFor proxyAddr = Success client →
      Do client (requestOf req) = Success res →
      NewReader res = Success gzReader →
      ReadAll gzReader = Failure err →
      FetchFailure url proxyAddr
  | ParseFailed req client res gzReader contents partial err :
      NewRequest "GET" url = Success req →
      clientFor proxyAddr = Success client →
      Do client (requestOf req) = Success res →
      NewReader res = Success gzReader →
      ReadAll gzReader = Success contents →
      Unmarshal contents Feed.zero = (partial, Some err) →
      FetchFailure url proxyAddr.

End Derived.

(** The title [AddSource] is to be called with for a key of
    [sortedSourceNames], in the words of the specification: the key resolves
    to a source with a non-empty title. *)
Definition expectedAddSource (feeds : gmap string (ptr Source.t)) (key : string)
    : option string :=
  match feeds !! key with
  | Some (Some src) => if decide (Source.Title src = "") then None else Some (Source.Title src)
  | _ => None
  end.

Definition addFeedCall (i : FeedItem.t) : Event :=
  EvAddFeed (FeedItem.Title i) (FeedItem.Description i) (FeedItem.Image i)
    (FeedItem.Link i).


(** ** Invariants of a run *)

(** The document [feed] points to satisfies [I]; in particular [feed] is
    not nil. *)
Definition holds (I : Feed.t → Prop) (s : State) : Prop :=
  ∃ f, feed s = Some f ∧ I f.

(** A computation keeps [I]: it holds where the computation leaves, by
    return or by panic, if it held where it started. *)
Definition keeps (I : Feed.t → Prop) {A} (m : M A) : Prop :=
  ∀ s, holds I s → holds I (finalState (m s)).

(** Two entry pointers that differ at most in the description of the
    entry. *)
Definition sameEntry (p p' : ptr FeedItem.t) : Prop :=
  match p, p' with
  | Some e, Some e' => e' = FeedItem.withDescription e (FeedItem.Description e')
  | None, None => True
  | _, _ => False
  end.

(** What [processFeed] leaves of the document [f0] it starts on. *)
Definition frame (f0 f : Feed.t) : Prop :=
  Feed.Feeds f = Feed.Feeds f0 ∧ Feed.Sorted f = Feed.Sorted f0 ∧
  Forall2 sameEntry (Feed.Entries f0) (Feed.Entries f).

(** A computation that writes neither [feed] nor the document. *)
Definition readOnly {A} (m : M A) : Prop :=
  ∀ s, feed (finalState (m s)) = feed s ∧ history (finalState (m s)) = history s.

(** What lines 229-236 append to the bucket [title], the sources being
    visited in the order [kvs]. *)
Definition appended (entries : FeedItems) (title : string)
    (kvs : list (string * ptr Source.t)) : FeedItems :=
  concat ((λ kv : string * ptr Source.t,
             match kv.2 with
             | Some src =>
                 if decide (Source.Title src = title)
                 then pick entries <$> Source.Entries src
                 else []
             | None => []
             end) <$> kvs).


(** ** Concrete worlds

    Instances of [Externals] on which the package can be evaluated.  The
    string functions are those of Go on ASCII strings, which is all the
    examples use; the remote side is scripted. *)

Definition isSpace (c : ascii) : bool :=
  let n := nat_of_ascii c in
  ((9 <=? n)%nat && (n <=? 13)%nat) || (n =? 32)%nat.

Fixpoint trimLeft (s : string) : string :=
  match s with
  | String c s' => if isSpace c then trimLeft s' else s
  | EmptyString => EmptyString
  end.

Fixpoint trimRight (s : string) : string :=
  match s with
  | String c s' =>
      match trimRight s' with
      | EmptyString => if isSpace c then EmptyString else String c EmptyString
      | r => String c r
      end
  | EmptyString => EmptyString
  end.

Definition asciiTrimSpace (s : string) : string := trimRight (trimLeft s).

Definition lower (c : ascii) : ascii :=
  let n := nat_of_ascii c in
  if (65 <=? n)%nat && (n <=? 90)%nat then ascii_of_nat (n + 32) else c.

Fixpoint asciiEqualFold (s t : string) : bool :=
  match s, t with
  | EmptyString, EmptyString => true
  | String a s', String b t' => Ascii.eqb (lower a) (lower b) && asciiEqualFold s' t'
  | _, _ => false
  end.

(** [fmt.Sprintf] for a format whose only verb is one [%s]. *)
Fixpoint sprintf1 (format arg : string) : string :=
  match format with
  | String "%" (String "s" rest) => arg +:+ rest
  | String c rest => String c (sprintf1 rest arg)
  | EmptyString => EmptyString
  end.

(** What the remote side does in one fetch: the country the geolocation
    service reports, the error (if any) of each step of the fetch, and what
    the decoder makes of the body. *)
Record Script : Type := mkScript {
  country : string;
  requestError : option error;
  clientError : option error;
  transportError : option error;
  gzipError : option error;
  readError : option error;
  decoded : Feed.t;
  decodeError : option error
}.

Definition scripted {A} (e : option error) (a : A) : Result A :=
  match e with
  | Some err => Failure err
  | None => Success a
  end.

Fixpoint asciiEqualFold_refl (s : string) : asciiEqualFold s s = true :=
  match s with
  | EmptyString => eq_refl
  | String a s' =>
      eq_trans (f_equal2 andb (Ascii.eqb_refl (lower a)) (asciiEqualFold_refl s')) eq_refl
  end.

Definition world (sc : Script) : Externals := {|
  TrimSpace := asciiTrimSpace;
  EqualFold := asciiEqualFold;
  EqualFold_refl := asciiEqualFold_refl;
  Sprintf := sprintf1;
  GetCountry := λ _, country sc;
  rangeFeeds := map_to_list;
  rangeFeeds_perm := λ m, reflexivity (map_to_list m);
  Client := string;
  Response := unit;
  GzReader := unit;
  NewRequest := λ method url, scripted (requestError sc) (mkRequest method url []);
  directClient := "";
  HTTPClient := λ proxyAddr, scripted (clientError sc) proxyAddr;
  Do := λ _ _, scripted (transportError sc) tt;
  NewReader := λ _, scripted (gzipError sc) tt;
  ReadAll := λ _, scripted (readError sc) [];
  Unmarshal := λ _ f,
    (Feed.mk (Feed.Feeds (decoded sc)) (Feed.Entries (decoded sc)) (Feed.Items f)
       (Feed.Sorted (decoded sc)), decodeError sc)
|}.

(** *** Sample documents and fetches *)

Definition item (title content source : string) (meta : gmap string iface)
    : FeedItem.t :=
  FeedItem.mk title ("https://example.org/" +:+ title) "" meta content source "".

Definition sampleEntries : FeedItems :=
  [ Some (item "a" "first" "bbc" {[ "description" := istring "  A summary  " ]});
    Some (item "b" "second" "bbc" {[ "description" := istring "   " ]});
    Some (item "c" "third" "ads" ∅) ].

(** Three entries; a source that lists its entries as [2, 0, 1], one that is
    kept out of "all", one without a title; and a sorted key ("gone") that
    is not in the map. *)
Definition sampleFeed : Feed.t :=
  Feed.mk
    {[ "bbc" := Some (Source.mk "https://example.org/bbc.xml" "BBC"
                        "https://example.org/bbc" false [2; 0; 1]%Z);
       "ads" := Some (Source.mk "https://example.org/ads.xml" "Sponsored"
                        "https://example.org/ads" true [2]%Z);
       "untitled" := Some (Source.mk "https://example.org/u.xml" ""
                             "https://example.org/u" false []) ]}
    sampleEntries None ["bbc"; "gone"; "untitled"; "ads"].

(** [entryIndices = [99]] with three entries. *)
Definition outOfRangeFeed : Feed.t :=
  Feed.mk
    {[ "bbc" := Some (Source.mk "https://example.org/bbc.xml" "BBC"
                        "https://example.org/bbc" false [99]%Z);
       "ads" := Some (Source.mk "https://example.org/ads.xml" "Sponsored"
                        "https://example.org/ads" true []) ]}
    sampleEntries None ["bbc"].

(** One entry, of a source that the document does not have. *)
Definition orphanEntry : FeedItem.t := item "a" "first" "unknown" ∅.
Definition orphanFeed : Feed.t := Feed.mk ∅ [Some orphanEntry] None [].

(** One entry, whose description is the number 42. *)
Definition numberEntry : FeedItem.t :=
  item "a" "first" "bbc" {[ "description" := ifloat64 "42" ]}.
Definition numberFeed : Feed.t :=
  Feed.mk (Feed.Feeds sampleFeed) [Some numberEntry] None [].

(** A fetch that goes through and decodes the sample document. *)
Definition goodFetch (country : string) : Script :=
  mkScript country None None None None None sampleFeed None.

(** A fetch whose body is not a JSON document. *)
Definition malformedFetch : Script :=
  mkScript "" None None None None None Feed.zero
    (Some (ExternalError "invalid character '<' looking for beginning of value")).

(** A fetch that does not get through, from Iran. *)
Definition unreachableFetch : Script :=
  mkScript "IR" None None (Some (ExternalError "connection refused")) None None
    Feed.zero None.

(** A process in which a fetch of the sample document has succeeded. *)
Definition populated : State :=
  finalState (doGetFeed (Ext := world (goodFetch "")) defaultFeedEndpoint "en_US" "All" ""
                initial).


(** A fetch that goes through and decodes the document with the index 99. *)
Definition badIndexFetch : Script :=
  mkScript "" None None None None None outOfRangeFeed None.

(** [entryIndices = [0, 99]] with three entries: an index in range before
    the one that is not. *)
Definition halfIndexedFeed : Feed.t :=
  Feed.mk
    {[ "bbc" := Some (Source.mk "https://example.org/bbc.xml" "BBC"
                        "https://example.org/bbc" false [0; 99]%Z) ]}
    [ Some (item "a" "first" "bbc" ∅);
      Some (item "b" "second" "bbc" ∅);
      Some (item "c" "third" "bbc" ∅) ]
    None ["bbc"].

(** Two sources with one title, and so with one bucket. *)
Definition sharedTitleFeed : Feed.t :=
  Feed.mk
    {[ "x" := Some (Source.mk "https://example.org/x.xml" "Dup"
                      "https://example.org/x" false [0]%Z);
       "y" := Some (Source.mk "https://example.org/y.xml" "Dup"
                      "https://example.org/y" false [1]%Z) ]}
    [ Some (item "a" "first" "x" ∅); Some (item "b" "second" "y" ∅) ]
    None ["x"; "y"].

(** The world of [world sc] with the maps visited backwards. *)
Definition backwards (sc : Script) : Externals :=
  reordered (world sc) (λ m, reverse (map_to_list m))
    (λ m, reverse_Permutation (map_to_list m)).

(** ** The monad *)

Lemma bind_Ok {A B} (m : M A) (k : A → M B) s a s1 :
  m s = Ok a s1 → (m ≫= k) s = k a s1.
Proof. unfold mbind, M_bind. by intros ->. Qed.

Lemma bind_Panic {A B} (m : M A) (k : A → M B) s f s1 :
  m s = Panic f s1 → (m ≫= k) s = Panic f s1.
Proof. unfold mbind, M_bind. by intros ->. Qed.

Lemma getFeed_Some s f : feed s = Some f → getFeed s = Ok f s.
Proof. unfold getFeed, readFeed, mbind, M_bind. by intros ->. Qed.

Lemma getFeed_None s : feed s = None → getFeed s = Panic NilDereference s.
Proof. unfold getFeed, readFeed, mbind, M_bind. by intros ->. Qed.

Lemma bind_not_Ok {A B} (m : M A) (k : A → M B) s :
  isOk (m s) = false → isOk ((m ≫= k) s) = false.
Proof. unfold mbind, M_bind. by destruct (m s). Qed.

Lemma forallb_true_Forall {A} (f : A → bool) (l : list A) :
  forallb f l = true ↔ Forall (λ x, f x = true) l.
Proof.
  induction l as [|x l IH]; simpl; [by split|].
  rewrite andb_true_iff, Forall_cons. by rewrite IH.
Qed.

Lemma forallb_false_Exists {A} (f : A → bool) (l : list A) :
  forallb f l = false ↔ Exists (λ x, f x = false) l.
Proof.
  induction l as [|x l IH]; simpl.
  { split; [done|]. by intros ?%Exists_nil. }
  rewrite andb_false_iff, Exists_cons. by rewrite IH.
Qed.

(** The first element of a list on which a test fails. *)
Lemma first_false {A} (P : A → bool) (l : list A) :
  Exists (λ x, P x = false) l →
  ∃ l1 x l2, l = l1 ++ x :: l2 ∧ Forall (λ x, P x = true) l1 ∧ P x = false.
Proof.
  induction l as [|a l IH]; intros Hex; [by apply Exists_nil in Hex|].
  destruct (P a) eqn:Ha.
  - apply Exists_cons in Hex as [Hex|Hex]; [congruence|].
    destruct (IH Hex) as (l1 & x & l2 & -> & Hl1 & Hx).
    exists (a :: l1), x, l2. split; [done|]. split; [by constructor|done].
  - exists [], a, l. by repeat split.
Qed.

Lemma forEach_app {A} (l1 l2 : list A) (body : A → M unit) s :
  forEach (l1 ++ l2) body s = (forEach l1 body;; forEach l2 body) s.
Proof.
  revert s; induction l1 as [|a l1 IH]; intros s; simpl; [done|].
  unfold mbind, M_bind. destruct (body a s); [|done]. apply IH.
Qed.

(** Unfolds the primitives of the monad, so that straight-line code runs. *)
Ltac run :=
  repeat (unfold mbind, M_bind, mret, M_ret, getFeed, readFeed, deref, panic,
            emit, setFeed; simpl).

(** ** The locale *)

Section Locale.
Context `{Ext : Externals}.

(** C7.  [determineLocale] treats the empty locale as [en_US]; a locale
    that does not fold to [en_US] is returned as it is without a
    geolocation lookup; one that does makes one lookup with a timeout of
    10 seconds, after which IR gives [fa_IR], MY gives [ms_MY] (both up to
    case), and an empty or any other country gives the locale unchanged. *)
Theorem determineLocale_spec (defaultLocale : string) (s : State) :
  determineLocale "" s = determineLocale en s ∧
  (defaultLocale ≠ "" →
   let country := GetCountry (10 * Second) in
   let lookup := EvGetCountry (10 * Second) in
   (EqualFold en defaultLocale = false →
      determineLocale defaultLocale s = Ok defaultLocale s) ∧
   (EqualFold en defaultLocale = true →
      (country = "" →
         determineLocale defaultLocale s =
           Ok defaultLocale
              (mkState (feed s) (history s)
                 (trace s ++ [lookup; EvDebugf "Could not lookup country" []]))) ∧
      (country ≠ "" → EqualFold "ir" country = true →
         determineLocale defaultLocale s =
           Ok "fa_IR" (mkState (feed s) (history s) (trace s ++ [lookup]))) ∧
      (country ≠ "" → EqualFold "ir" country = false →
       EqualFold "my" country = true →
         determineLocale defaultLocale s =
           Ok "ms_MY" (mkState (feed s) (history s) (trace s ++ [lookup]))) ∧
      (country ≠ "" → EqualFold "ir" country = false →
       EqualFold "my" country = false →
         determineLocale defaultLocale s =
           Ok defaultLocale (mkState (feed s) (history s) (trace s ++ [lookup]))))).
Proof.
  split; [done|].
  intros Hne country lookup. subst country lookup. unfold determineLocale.
  destruct (decide (defaultLocale = "")) as [|_]; [done|].
  split.
  - intros ->. simpl. by destruct s.
  - intros ->. simpl.
    destruct (decide (GetCountry (10 * Second) = "")) as [Hc|Hc].
    + repeat split; try done. intros _. run. by rewrite <- app_assoc.
    + repeat split; try done.
      * by intros _ ->.
      * by intros _ -> ->.
      * by intros _ -> ->.
Qed.

End Locale.

(** ** Normalization, loop by loop *)

Section Normal.
Context `{Ext : Externals}.

(** *** The description loop *)

Lemma index_Some {A} (l : list A) (i : nat) (a : A) s :
  l !! i = Some a → index l (Z.of_nat i) s = Ok a s.
Proof.
  unfold index. intros H.
  rewrite (proj2 (Z.leb_le 0 (Z.of_nat i))) by lia. by rewrite Nat2Z.id, H.
Qed.

Lemma describeEntry_Ok f i e h tr :
  Feed.Entries f !! i = Some (Some e) →
  describable (Some e) = true →
  ∃ h', describeEntry i (mkState (Some f) h tr) =
    Ok tt (mkState (Some (Feed.withEntries f (<[i := Some (described e)]> (Feed.Entries f))))
             h' tr).
Proof.
  intros Hi Hd. unfold describeEntry. run.
  rewrite (index_Some _ _ _ _ Hi). simpl.
  unfold described, derivedDescription. simpl in Hd.
  destruct (FeedItem.Meta e !! "description") as [[]|] eqn:Hm; simpl in *;
    try done; rewrite (index_Some _ _ _ _ Hi); simpl; eexists; done.
Qed.

Lemma describeEntry_Panic f i v h tr :
  Feed.Entries f !! i = Some v →
  describable v = false →
  isOk (describeEntry i (mkState (Some f) h tr)) = false.
Proof.
  intros Hi Hd. unfold describeEntry. run.
  rewrite (index_Some _ _ _ _ Hi). simpl.
  destruct v as [e|]; simpl in *; [|done].
  by destruct (default inil (FeedItem.Meta e !! "description")).
Qed.

Lemma withEntries_id f : Feed.withEntries f (Feed.Entries f) = f.
Proof. by destruct f. Qed.

Lemma describeLoop_Ok f done todo h tr :
  Feed.Entries f = done ++ todo →
  Forall (λ p, describable p = true) todo →
  ∃ h', forEach (seq (length done) (length todo)) describeEntry
          (mkState (Some f) h tr) =
    Ok tt (mkState (Some (Feed.withEntries f (done ++ (describedPtr <$> todo)))) h' tr).
Proof.
  intros Hf Hall. revert f done h Hf.
  induction Hall as [|p todo Hp Hall IH]; intros f done h Hf.
  - exists h. simpl. by rewrite app_nil_r, <- (app_nil_r done), <- Hf, withEntries_id.
  - destruct p as [e|]; [|done]. simpl.
    destruct (describeEntry_Ok f (length done) e h tr) as [h1 H1]; [|done|].
    { by rewrite Hf, list_lookup_middle. }
    rewrite (bind_Ok _ _ _ _ _ H1).
    rewrite Hf, insert_app_r_alt, Nat.sub_diag by done. simpl.
    destruct (IH (Feed.withEntries f (done ++ Some (described e) :: todo))
                (done ++ [Some (described e)]) h1) as [h2 H2].
    { simpl. by rewrite <- app_assoc. }
    rewrite length_app, Nat.add_comm in H2. simpl in H2.
    exists h2. rewrite H2. by rewrite <- app_assoc.
Qed.

Lemma describeLoop_Panic f done todo h tr :
  Feed.Entries f = done ++ todo →
  Exists (λ p, describable p = false) todo →
  isOk (forEach (seq (length done) (length todo)) describeEntry
          (mkState (Some f) h tr)) = false.
Proof.
  intros Hf Hex. revert f done h Hf.
  induction Hex as [p todo Hp|p todo Hex IH]; intros f done h Hf.
  - simpl. unfold mbind, M_bind.
    pose proof (describeEntry_Panic f (length done) p h tr) as HP.
    rewrite Hf, list_lookup_middle in HP by done.
    specialize (HP eq_refl Hp).
    by destruct (describeEntry _ _).
  - destruct (describable p) eqn:Hp.
    + destruct p as [e|]; [|done]. simpl.
      destruct (describeEntry_Ok f (length done) e h tr) as [h1 H1]; [|done|].
      { by rewrite Hf, list_lookup_middle. }
      rewrite (bind_Ok _ _ _ _ _ H1).
      rewrite Hf, insert_app_r_alt, Nat.sub_diag by done. simpl.
      specialize (IH (Feed.withEntries f (done ++ Some (described e) :: todo))
                    (done ++ [Some (described e)]) h1).
      rewrite length_app, Nat.add_comm in IH. simpl in IH.
      apply IH. by rewrite <- app_assoc.
    + simpl. unfold mbind, M_bind.
      pose proof (describeEntry_Panic f (length done) p h tr) as HP.
      rewrite Hf, list_lookup_middle in HP by done.
      specialize (HP eq_refl Hp).
      by destruct (describeEntry _ _).
Qed.

(** The loop up to, and without, the entries [rest]. *)
Lemma describeLoop_upto f done todo rest h tr :
  Feed.Entries f = done ++ todo ++ rest →
  Forall (λ p, describable p = true) todo →
  ∃ h', forEach (seq (length done) (length todo)) describeEntry
          (mkState (Some f) h tr) =
    Ok tt (mkState (Some (Feed.withEntries f (done ++ (describedPtr <$> todo) ++ rest)))
             h' tr).
Proof.
  intros Hf Hall. revert f done h Hf.
  induction Hall as [|p todo Hp Hall IH]; intros f done h Hf.
  - exists h. simpl in *. by rewrite <- Hf, withEntries_id.
  - destruct p as [e|]; [|done]. simpl in *.
    destruct (describeEntry_Ok f (length done) e h tr) as [h1 H1]; [|done|].
    { by rewrite Hf, list_lookup_middle. }
    rewrite (bind_Ok _ _ _ _ _ H1).
    rewrite Hf, insert_app_r_alt, Nat.sub_diag by done. simpl.
    destruct (IH (Feed.withEntries f (done ++ Some (described e) :: todo ++ rest))
                (done ++ [Some (described e)]) h1) as [h2 H2].
    { simpl. by rewrite <- app_assoc. }
    rewrite length_app, Nat.add_comm in H2. simpl in H2.
    exists h2. rewrite H2. by rewrite <- app_assoc.
Qed.

Lemma describeEntry_TypeAssertion f i e v h tr :
  Feed.Entries f !! i = Some (Some e) →
  FeedItem.Meta e !! "description" = Some v →
  v ≠ inil → (∀ str, v ≠ istring str) →
  describeEntry i (mkState (Some f) h tr) =
    Panic (TypeAssertion v) (mkState (Some f) h tr).
Proof.
  intros Hi Hm Hnil Hstr. unfold describeEntry. run.
  rewrite (index_Some _ _ _ _ Hi). simpl. rewrite Hm. simpl.
  destruct v; try done. by destruct (Hstr s).
Qed.

(** *** The "all" tab *)

Lemma collectAll_Ok f entries all h tr :
  Forall (λ p, resolves (Feed.Feeds f) p = true) entries →
  collectAll entries all (mkState (Some f) h tr) =
    Ok (all ++ filter (λ p, included (Feed.Feeds f) p = true) entries)
       (mkState (Some f) h tr).
Proof.
  intros Hall. revert all.
  induction Hall as [|p entries Hp Hall IH]; intros all; simpl.
  { by rewrite app_nil_r. }
  destruct p as [e|]; [|done]. simpl in Hp. run.
  rewrite filter_cons. simpl.
  destruct (Feed.Feeds f !! FeedItem.Source e) as [[src|]|]; try done. simpl.
  destruct (Source.ExcludeFromAll src); simpl.
  - apply IH.
  - rewrite IH. by rewrite <- app_assoc.
Qed.

Lemma collectAll_Panic f entries all h tr :
  Exists (λ p, resolves (Feed.Feeds f) p = false) entries →
  isOk (collectAll entries all (mkState (Some f) h tr)) = false.
Proof.
  intros Hex. revert all.
  induction Hex as [p entries Hp|p entries Hex IH]; intros all; simpl.
  - destruct p as [e|]; [|done]. simpl in Hp. run.
    by destruct (Feed.Feeds f !! FeedItem.Source e) as [[src|]|].
  - destruct p as [e|]; [|done]. run.
    destruct (Feed.Feeds f !! FeedItem.Source e) as [[src|]|]; try done. simpl.
    destruct (Source.ExcludeFromAll src); simpl; apply IH.
Qed.

(** *** The source listing *)

Lemma announceSource_Ok f key h tr :
  Feed.Feeds f !! key ≠ Some None →
  announceSource key (mkState (Some f) h tr) =
    Ok tt (mkState (Some f) h (tr ++ announcement (Feed.Feeds f) key)).
Proof.
  intros Hkey. unfold announceSource, announcement. run.
  destruct (Feed.Feeds f !! key) as [[src|]|]; try done; simpl.
  rewrite bool_decide_decide.
  destruct (decide (Source.Title src = "")); simpl; [done|].
  by rewrite <- app_assoc.
Qed.

Lemma announceSource_Panic f key h tr :
  Feed.Feeds f !! key = Some None →
  isOk (announceSource key (mkState (Some f) h tr)) = false.
Proof. intros Hkey. unfold announceSource. run. by rewrite Hkey. Qed.

Lemma announceLoop_Ok f keys h tr :
  Forall (λ key, Feed.Feeds f !! key ≠ Some None) keys →
  forEach keys announceSource (mkState (Some f) h tr) =
    Ok tt (mkState (Some f) h (tr ++ concat (announcement (Feed.Feeds f) <$> keys))).
Proof.
  intros Hall. revert tr.
  induction Hall as [|key keys Hkey Hall IH]; intros tr; simpl.
  { by rewrite app_nil_r. }
  rewrite (bind_Ok _ _ _ _ _ (announceSource_Ok f key h tr Hkey)).
  rewrite IH. by rewrite <- app_assoc.
Qed.

Lemma announceLoop_Panic f keys h tr :
  Exists (λ key, Feed.Feeds f !! key = Some None) keys →
  isOk (forEach keys announceSource (mkState (Some f) h tr)) = false.
Proof.
  intros Hex. revert tr.
  induction Hex as [key keys Hkey|key keys Hex IH]; intros tr; simpl.
  - pose proof (announceSource_Panic f key h tr Hkey) as HP.
    unfold mbind, M_bind. by destruct (announceSource _ _).
  - assert (Feed.Feeds f !! key = Some None ∨ Feed.Feeds f !! key ≠ Some None)
      as [Hkey|Hkey] by (destruct (Feed.Feeds f !! key) as [[|]|]; auto).
    + pose proof (announceSource_Panic f key h tr Hkey) as HP.
      unfold mbind, M_bind. by destruct (announceSource _ _).
    + rewrite (bind_Ok _ _ _ _ _ (announceSource_Ok f key h tr Hkey)). apply IH.
Qed.

(** *** The per-source buckets *)

Lemma inRange_spec (es : FeedItems) i :
  inRange es i = true ↔ (0 ≤ i < Z.of_nat (length es))%Z.
Proof. unfold inRange. rewrite andb_true_iff, Z.leb_le, Z.ltb_lt. done. Qed.

Lemma index_inRange (l : FeedItems) (i : Z) s :
  inRange l i = true → index l i s = Ok (pick l i) s.
Proof.
  unfold inRange, index, pick. intros [H0 Hlt]%andb_true_iff.
  rewrite H0. apply Z.leb_le in H0. apply Z.ltb_lt in Hlt.
  destruct (l !! Z.to_nat i) eqn:Hl; [done|].
  apply lookup_ge_None in Hl. lia.
Qed.

Lemma index_outOfRange (l : FeedItems) (i : Z) s :
  inRange l i = false → index l i s = Panic (IndexOutOfRange i (length l)) s.
Proof.
  unfold inRange, index. intros H.
  destruct (0 <=? i)%Z eqn:H0; [|done]. simpl in H.
  apply Z.leb_le in H0. apply Z.ltb_ge in H.
  rewrite (proj2 (lookup_ge_None l (Z.to_nat i))); [done|lia].
Qed.

Lemma appendItems_cons m title p l :
  appendItems (<[title := default [] (m !! title) ++ [p]]> m) title l =
  appendItems m title (p :: l).
Proof.
  unfold appendItems. destruct l as [|q l]; [done|].
  rewrite lookup_insert_eq, insert_insert_eq. simpl. by rewrite <- app_assoc.
Qed.

Lemma appendEntry_Ok f m title i h tr :
  Feed.Items f = Some m →
  inRange (Feed.Entries f) i = true →
  ∃ h', appendEntry title i (mkState (Some f) h tr) =
    Ok tt (mkState (Some (Feed.withItems f
             (Some (<[title := default [] (m !! title) ++ [pick (Feed.Entries f) i]]> m))))
             h' tr).
Proof.
  intros Hm Hi. unfold appendEntry, readItems, assignItems. run.
  rewrite (index_inRange _ _ _ Hi). simpl. rewrite Hm. simpl. by eexists.
Qed.

Lemma appendEntry_Panic f title i h tr :
  inRange (Feed.Entries f) i = false →
  isOk (appendEntry title i (mkState (Some f) h tr)) = false.
Proof.
  intros Hi. unfold appendEntry. run. by rewrite (index_outOfRange _ _ _ Hi).
Qed.

Lemma appendLoop_Ok f m title indices h tr :
  Feed.Items f = Some m →
  Forall (λ i, inRange (Feed.Entries f) i = true) indices →
  ∃ h', forEach indices (appendEntry title) (mkState (Some f) h tr) =
    Ok tt (mkState (Some (Feed.withItems f
             (Some (appendItems m title (pick (Feed.Entries f) <$> indices)))))
             h' tr).
Proof.
  intros Hm Hall. revert f m h Hm Hall.
  induction indices as [|i indices IH]; intros f m h Hm Hall.
  - exists h. simpl. destruct f; simpl in *. by subst.
  - apply Forall_cons in Hall as [Hi Hall]. simpl.
    destruct (appendEntry_Ok f m title i h tr Hm Hi) as [h1 H1].
    rewrite (bind_Ok _ _ _ _ _ H1).
    destruct (IH (Feed.withItems f
                    (Some (<[title := default [] (m !! title) ++ [pick (Feed.Entries f) i]]> m)))
                _ h1 eq_refl Hall) as [h2 H2].
    exists h2. rewrite H2. simpl. by rewrite appendItems_cons.
Qed.

Lemma appendLoop_Panic f m title indices h tr :
  Feed.Items f = Some m →
  Exists (λ i, inRange (Feed.Entries f) i = false) indices →
  isOk (forEach indices (appendEntry title) (mkState (Some f) h tr)) = false.
Proof.
  intros Hm Hex. revert f m h Hm Hex.
  induction indices as [|i indices IH]; intros f m h Hm Hex.
  { by apply Exists_nil in Hex. }
  simpl. destruct (inRange (Feed.Entries f) i) eqn:Hi.
  - apply Exists_cons in Hex as [Hex|Hex]; [congruence|].
    destruct (appendEntry_Ok f m title i h tr Hm Hi) as [h1 H1].
    rewrite (bind_Ok _ _ _ _ _ H1). by eapply IH.
  - pose proof (appendEntry_Panic f title i h tr Hi) as HP.
    unfold mbind, M_bind. by destruct (appendEntry _ _ _).
Qed.

Lemma indexSource_Some src s :
  indexSource (Some src) s =
  forEach (Source.Entries src) (appendEntry (Source.Title src)) s.
Proof. done. Qed.

Lemma indexLoop_Ok f m (kvs : list (string * ptr Source.t)) h tr :
  Feed.Items f = Some m →
  Forall (λ kv, sourceOK (Feed.Entries f) kv.2 = true) kvs →
  ∃ h', forEach kvs (λ kv, indexSource kv.2) (mkState (Some f) h tr) =
    Ok tt (mkState (Some (Feed.withItems f
             (Some (foldl (sourceStep (Feed.Entries f)) m kvs)))) h' tr).
Proof.
  intros Hm Hall. revert f m h Hm Hall.
  induction kvs as [|[key p] kvs IH]; intros f m h Hm Hall.
  - exists h. simpl. destruct f; simpl in *. by subst.
  - apply Forall_cons in Hall as [Hp Hall]. simpl in Hp.
    destruct p as [src|]; [|done]. simpl in Hp.
    apply forallb_true_Forall in Hp.
    destruct (appendLoop_Ok f m (Source.Title src) (Source.Entries src) h tr Hm Hp)
      as [h1 H1].
    simpl. rewrite <- indexSource_Some in H1. rewrite (bind_Ok _ _ _ _ _ H1).
    destruct (IH (Feed.withItems f (Some (appendItems m (Source.Title src)
                    (pick (Feed.Entries f) <$> Source.Entries src)))) _ h1 eq_refl Hall)
      as [h2 H2].
    exists h2. by rewrite H2.
Qed.

Lemma indexLoop_Panic f m (kvs : list (string * ptr Source.t)) h tr :
  Feed.Items f = Some m →
  Exists (λ kv, sourceOK (Feed.Entries f) kv.2 = false) kvs →
  isOk (forEach kvs (λ kv, indexSource kv.2) (mkState (Some f) h tr)) = false.
Proof.
  intros Hm Hex. revert f m h Hm Hex.
  induction kvs as [|[key p] kvs IH]; intros f m h Hm Hex.
  { by apply Exists_nil in Hex. }
  simpl. destruct p as [src|]; [|done].
  destruct (forallb (inRange (Feed.Entries f)) (Source.Entries src)) eqn:Hsrc.
  - apply Exists_cons in Hex as [Hex|Hex]; [simpl in Hex; congruence|].
    pose proof Hsrc as Hp. apply forallb_true_Forall in Hp.
    destruct (appendLoop_Ok f m (Source.Title src) (Source.Entries src) h tr Hm Hp)
      as [h1 H1].
    rewrite <- indexSource_Some in H1. rewrite (bind_Ok _ _ _ _ _ H1). by eapply IH.
  - apply forallb_false_Exists in Hsrc as Hbad.
    pose proof (appendLoop_Panic f m (Source.Title src) _ h tr Hm Hbad) as HP.
    rewrite <- indexSource_Some in HP.
    unfold mbind, M_bind. by destruct (indexSource _ _).
Qed.

(** The loops up to the first index that is out of range: the fault, and
    the buckets as they are when it happens. *)
Lemma appendEntry_IndexOutOfRange f title i h tr :
  inRange (Feed.Entries f) i = false →
  appendEntry title i (mkState (Some f) h tr) =
    Panic (IndexOutOfRange i (length (Feed.Entries f))) (mkState (Some f) h tr).
Proof.
  intros Hi. unfold appendEntry. run. by rewrite (index_outOfRange _ _ _ Hi).
Qed.

Lemma appendLoop_upto f m title ok i rest h tr :
  Feed.Items f = Some m →
  Forall (λ i, inRange (Feed.Entries f) i = true) ok →
  inRange (Feed.Entries f) i = false →
  ∃ h', forEach (ok ++ i :: rest) (appendEntry title) (mkState (Some f) h tr) =
    Panic (IndexOutOfRange i (length (Feed.Entries f)))
      (mkState (Some (Feed.withItems f
         (Some (appendItems m title (pick (Feed.Entries f) <$> ok))))) h' tr).
Proof.
  intros Hm Hok Hi. rewrite forEach_app.
  destruct (appendLoop_Ok f m title ok h tr Hm Hok) as [h1 H1].
  rewrite (bind_Ok _ _ _ _ _ H1). exists h1. cbn [forEach].
  erewrite bind_Panic; [done|].
  by apply (appendEntry_IndexOutOfRange (Feed.withItems f _)).
Qed.

Lemma indexLoop_upto f m (visited after : list (string * ptr Source.t)) key src
    ok i rest h tr :
  Feed.Items f = Some m →
  Forall (λ kv, sourceOK (Feed.Entries f) kv.2 = true) visited →
  Source.Entries src = ok ++ i :: rest →
  Forall (λ i, inRange (Feed.Entries f) i = true) ok →
  inRange (Feed.Entries f) i = false →
  ∃ h', forEach (visited ++ (key, Some src) :: after) (λ kv, indexSource kv.2)
          (mkState (Some f) h tr) =
    Panic (IndexOutOfRange i (length (Feed.Entries f)))
      (mkState (Some (Feed.withItems f
         (Some (appendItems (foldl (sourceStep (Feed.Entries f)) m visited)
                  (Source.Title src) (pick (Feed.Entries f) <$> ok))))) h' tr).
Proof.
  intros Hm Hvis Hsrc Hok Hi. rewrite forEach_app.
  destruct (indexLoop_Ok f m visited h tr Hm Hvis) as [h1 H1].
  rewrite (bind_Ok _ _ _ _ _ H1). cbn [forEach snd].
  destruct (appendLoop_upto
              (Feed.withItems f (Some (foldl (sourceStep (Feed.Entries f)) m visited)))
              _ (Source.Title src) ok i rest h1 tr eq_refl Hok Hi) as [h2 H2].
  exists h2. erewrite bind_Panic; [done|].
  rewrite indexSource_Some, Hsrc. exact H2.
Qed.

(** *** The whole of [processFeed] *)

Lemma getFeed_run f h tr :
  getFeed (mkState (Some f) h tr) = Ok f (mkState (Some f) h tr).
Proof. done. Qed.

Lemma emit_run e v h tr :
  emit e (mkState v h tr) = Ok tt (mkState v h (tr ++ [e])).
Proof. done. Qed.

Lemma setFeed_run v' v h tr :
  setFeed v' (mkState v h tr) = Ok tt (mkState v' (h ++ [v']) tr).
Proof. done. Qed.

Lemma assignItems_run f m key items h tr :
  Feed.Items f = Some m →
  assignItems key items (mkState (Some f) h tr) =
    Ok tt (mkState (Some (Feed.withItems f (Some (<[key := items]> m))))
             (h ++ [Some (Feed.withItems f (Some (<[key := items]> m)))]) tr).
Proof. intros Hm. unfold assignItems. run. by rewrite Hm. Qed.

Lemma describable_described p :
  describable p = true → ∃ e, p = Some e.
Proof. destruct p; [eauto|done]. Qed.

Lemma resolves_described feeds p :
  resolves feeds (describedPtr p) = resolves feeds p.
Proof. by destruct p. Qed.

Lemma included_described feeds p :
  included feeds (describedPtr p) = included feeds p.
Proof. by destruct p. Qed.

Lemma length_normalEntries f : length (normalEntries f) = length (Feed.Entries f).
Proof. unfold normalEntries. by rewrite length_fmap. Qed.

Lemma inRange_length (l1 l2 : FeedItems) i :
  length l1 = length l2 → inRange l1 i = inRange l2 i.
Proof. unfold inRange. by intros ->. Qed.

Lemma sourceOK_length (l1 l2 : FeedItems) p :
  length l1 = length l2 → sourceOK l1 p = sourceOK l2 p.
Proof.
  intros Hlen. destruct p as [src|]; [|done]. simpl.
  induction (Source.Entries src) as [|i l IH]; [done|].
  simpl. by rewrite IH, (inRange_length l1 l2).
Qed.

(** [processFeed] up to its last loop: a fault in lines 193-227, or the
    state in which line 229 is reached. *)
Lemma processFeed_prefix allStr f h tr :
  if forallb describable (Feed.Entries f)
     && forallb (resolves (Feed.Feeds f)) (Feed.Entries f)
     && forallb (listable (Feed.Feeds f)) (Feed.Sorted f)
  then
    ∃ h', processFeed allStr (mkState (Some f) h tr) =
      forEach (rangeFeeds (Feed.Feeds f)) (λ kv, indexSource kv.2)
        (mkState (Some (beforeIndexing allStr f)) h' (tr ++ processFeedTrace f))
  else isOk (processFeed allStr (mkState (Some f) h tr)) = false.
Proof.
  unfold processFeed.
  rewrite (bind_Ok _ _ _ _ _ (getFeed_run _ _ _)).
  rewrite (bind_Ok _ _ _ _ _ (emit_run _ _ _ _)).
  rewrite (bind_Ok _ _ _ _ _ (getFeed_run _ _ _)).
  rewrite (bind_Ok _ _ _ _ _ (setFeed_run _ _ _ _)).
  rewrite (bind_Ok _ _ _ _ _ (getFeed_run _ _ _)).
  change (Feed.Entries (Feed.withItems f (Some ∅))) with (Feed.Entries f).
  destruct (forallb describable (Feed.Entries f)) eqn:Hdesc; simpl; cycle 1.
  { apply forallb_false_Exists in Hdesc.
    apply bind_not_Ok.
    by apply (describeLoop_Panic (Feed.withItems f (Some ∅)) [] (Feed.Entries f)). }
  apply forallb_true_Forall in Hdesc.
  destruct (describeLoop_Ok (Feed.withItems f (Some ∅)) [] (Feed.Entries f)
              (h ++ [Some (Feed.withItems f (Some ∅))])
              (tr ++ [EvDebugf "Num of Feed Entries: %v"
                        [LInt (Z.of_nat (length (Feed.Entries f)))]])
              eq_refl Hdesc) as [h1 H1].
  simpl in H1. rewrite (bind_Ok _ _ _ _ _ H1). clear H1.
  rewrite (bind_Ok _ _ _ _ _ (getFeed_run _ _ _)).
  change (Feed.Entries (Feed.withEntries _ ?es)) with es.
  fold (normalEntries f).
  destruct (forallb (resolves (Feed.Feeds f)) (Feed.Entries f)) eqn:Hres; simpl;
    cycle 1.
  { apply forallb_false_Exists in Hres.
    apply bind_not_Ok, collectAll_Panic. simpl.
    unfold normalEntries. apply Exists_fmap.
    eapply Exists_impl; [done|]. intros p Hp. simpl. by rewrite resolves_described. }
  apply forallb_true_Forall in Hres.
  erewrite bind_Ok; cycle 1.
  { apply (collectAll_Ok
             (Feed.withEntries (Feed.withItems f (Some ∅)) (normalEntries f))).
    simpl. unfold normalEntries. apply Forall_fmap.
    eapply Forall_impl; [done|]. intros p Hp. simpl. by rewrite resolves_described. }
  simpl.
  erewrite bind_Ok; [|by apply assignItems_run].
  rewrite (bind_Ok _ _ _ _ _ (getFeed_run _ _ _)).
  simpl. rewrite insert_empty. fold (allBucket f).
  destruct (forallb (listable (Feed.Feeds f)) (Feed.Sorted f)) eqn:Hsorted; cycle 1.
  { apply forallb_false_Exists in Hsorted.
    apply bind_not_Ok, announceLoop_Panic. simpl.
    eapply Exists_impl; [done|]. intros key. unfold listable.
    by destruct (Feed.Feeds f !! key) as [[|]|]. }
  apply forallb_true_Forall in Hsorted.
  erewrite bind_Ok; cycle 1.
  { apply announceLoop_Ok. simpl.
    eapply Forall_impl; [done|]. intros key. unfold listable.
    by destruct (Feed.Feeds f !! key) as [[|]|]. }
  rewrite (bind_Ok _ _ _ _ _ (getFeed_run _ _ _)). simpl.
  eexists. unfold beforeIndexing, processFeedTrace.
  by rewrite <- app_assoc.
Qed.

Lemma wellFormed_listable f key :
  forallb (λ kv, sourceOK (Feed.Entries f) kv.2) (map_to_list (Feed.Feeds f)) = true →
  listable (Feed.Feeds f) key = true.
Proof.
  intros Hall. unfold listable.
  destruct (Feed.Feeds f !! key) as [[src|]|] eqn:Hkey; try done.
  apply forallb_true_Forall in Hall. rewrite Forall_forall in Hall.
  apply elem_of_map_to_list in Hkey. by apply Hall in Hkey.
Qed.

(** On a well-formed document [processFeed] runs to its end and leaves
    the normal form of the document. *)
Lemma processFeed_Ok allStr f h tr :
  wellFormed f = true →
  ∃ h', processFeed allStr (mkState (Some f) h tr) =
    Ok tt (mkState (Some (normalForm allStr f)) h' (tr ++ processFeedTrace f)).
Proof.
  unfold wellFormed. intros [[Hdesc Hres]%andb_true_iff Hsrc]%andb_true_iff.
  pose proof (processFeed_prefix allStr f h tr) as Hpre.
  rewrite Hdesc, Hres in Hpre. simpl in Hpre.
  rewrite (proj2 (forallb_true_Forall _ _)) in Hpre; cycle 1.
  { apply Forall_forall. intros key _. by apply wellFormed_listable. }
  destruct Hpre as [h1 ->].
  destruct (indexLoop_Ok (beforeIndexing allStr f) {[allStr := allBucket f]}
              (rangeFeeds (Feed.Feeds f)) h1 (tr ++ processFeedTrace f) eq_refl)
    as [h2 H2].
  { rewrite rangeFeeds_perm. apply forallb_true_Forall in Hsrc.
    eapply Forall_impl; [done|]. intros kv Hkv. simpl.
    by rewrite (sourceOK_length _ (Feed.Entries f)) by apply length_normalEntries. }
  exists h2. by rewrite H2.
Qed.

(** On any other document it faults. *)
Lemma processFeed_Panic allStr f h tr :
  wellFormed f = false →
  isOk (processFeed allStr (mkState (Some f) h tr)) = false.
Proof.
  unfold wellFormed. intros Hwf.
  pose proof (processFeed_prefix allStr f h tr) as Hpre.
  destruct (forallb describable (Feed.Entries f)); [|done].
  destruct (forallb (resolves (Feed.Feeds f)) (Feed.Entries f)); [|done].
  destruct (forallb (listable (Feed.Feeds f)) (Feed.Sorted f)); [|done].
  simpl in *. destruct Hpre as [h1 ->].
  apply (indexLoop_Panic (beforeIndexing allStr f) {[allStr := allBucket f]});
    [done|].
  rewrite rangeFeeds_perm. apply forallb_false_Exists in Hwf.
  eapply Exists_impl; [done|]. intros kv Hkv. simpl.
  by rewrite (sourceOK_length _ (Feed.Entries f)) by apply length_normalEntries.
Qed.

Lemma processFeed_nil allStr s :
  feed s = None → processFeed allStr s = Panic NilDereference s.
Proof.
  intros Hs. unfold processFeed. by rewrite (bind_Panic _ _ _ _ _ (getFeed_None s Hs)).
Qed.

End Normal.

(** ** Normalization: the claims *)

Section NormalizationClaims.
Context `{Ext : Externals}.

Lemma addSourceCalls_app tr1 tr2 :
  addSourceCalls (tr1 ++ tr2) = addSourceCalls tr1 ++ addSourceCalls tr2.
Proof. apply omap_app. Qed.

Lemma addSourceCalls_announcements feeds keys :
  addSourceCalls (concat (announcement feeds <$> keys)) =
  omap (expectedAddSource feeds) keys.
Proof.
  induction keys as [|key keys IH]; [done|].
  rewrite fmap_cons, concat_cons, addSourceCalls_app, IH.
  cbn [omap list_omap]. unfold announcement, expectedAddSource.
  destruct (feeds !! key) as [[src|]|]; try done.
  by destruct (decide (Source.Title src = "")).
Qed.

(** C5.  After normalization the description of every entry is the
    trimmed [meta["description"]] when that is a string that is not empty
    once trimmed, and the entry's content otherwise (key absent, null, or
    trimmed to the empty string); the rest of the entry is untouched, and
    the description is assigned also when it is empty. *)
Theorem description_derivation (allStr : string) (s : State) (f : Feed.t) :
  feed s = Some f →
  wellFormed f = true →
  ∃ s' f',
    processFeed allStr s = Ok tt s' ∧ feed s' = Some f' ∧
    length (Feed.Entries f') = length (Feed.Entries f) ∧
    ∀ i e, Feed.Entries f !! i = Some (Some e) →
      ∃ e', Feed.Entries f' !! i = Some (Some e') ∧
        e' = FeedItem.withDescription e (FeedItem.Description e') ∧
        (∀ str, FeedItem.Meta e !! "description" = Some (istring str) →
                TrimSpace str ≠ "" → FeedItem.Description e' = TrimSpace str) ∧
        (∀ str, FeedItem.Meta e !! "description" = Some (istring str) →
                TrimSpace str = "" → FeedItem.Description e' = FeedItem.Content e) ∧
        (FeedItem.Meta e !! "description" = None ∨
         FeedItem.Meta e !! "description" = Some inil →
           FeedItem.Description e' = FeedItem.Content e).
Proof.
  intros Hs Hwf. destruct s as [v h tr]; simpl in Hs; subst v.
  destruct (processFeed_Ok allStr f h tr Hwf) as [h' H].
  eexists _, _. split; [exact H|]. split; [done|]. simpl.
  split; [apply length_normalEntries|].
  intros i e Hi. exists (described e). unfold normalEntries.
  rewrite list_lookup_fmap, Hi. split; [done|]. split; [done|].
  simpl. unfold derivedDescription. repeat split.
  - intros str -> Hne. by rewrite decide_False.
  - intros str -> He. by rewrite decide_True.
  - by intros [-> | ->].
Qed.

(** C9.  During normalization [AddSource] is called once, with the
    title, for each key of [Sorted] that resolves to a source with a
    non-empty title, in the order of [Sorted]; a key that is missing from
    [Feeds], or whose source has an empty title, gets no call and does not
    stop the run. *)
Theorem source_listing (allStr : string) (s : State) (f : Feed.t) :
  feed s = Some f →
  wellFormed f = true →
  ∃ s',
    processFeed allStr s = Ok tt s' ∧
    addSourceCalls (trace s') =
      addSourceCalls (trace s) ++ omap (expectedAddSource (Feed.Feeds f)) (Feed.Sorted f).
Proof.
  intros Hs Hwf. destruct s as [v h tr]; simpl in Hs; subst v.
  destruct (processFeed_Ok allStr f h tr Hwf) as [h' H].
  eexists. split; [exact H|]. simpl.
  unfold processFeedTrace.
  rewrite addSourceCalls_app, <- addSourceCalls_announcements. done.
Qed.

(** C10.  A description that is present, not null and not a string stops
    normalization at the type assertion of line 196: the entries before it
    being in order, [processFeed] panics there and never falls back to the
    content. *)
Theorem description_type_assertion (allStr : string) (s : State) (f : Feed.t)
    (before after : FeedItems) (e : FeedItem.t) (v : iface) :
  feed s = Some f →
  Feed.Entries f = before ++ Some e :: after →
  forallb describable before = true →
  FeedItem.Meta e !! "description" = Some v →
  v ≠ inil → (∀ str, v ≠ istring str) →
  faultOf (processFeed allStr s) = Some (TypeAssertion v).
Proof.
  intros Hs Hf Hbefore Hm Hnil Hstr.
  destruct s as [v0 h tr]; simpl in Hs; subst v0.
  apply forallb_true_Forall in Hbefore.
  unfold processFeed.
  rewrite (bind_Ok _ _ _ _ _ (getFeed_run _ _ _)).
  rewrite (bind_Ok _ _ _ _ _ (emit_run _ _ _ _)).
  rewrite (bind_Ok _ _ _ _ _ (getFeed_run _ _ _)).
  rewrite (bind_Ok _ _ _ _ _ (setFeed_run _ _ _ _)).
  rewrite (bind_Ok _ _ _ _ _ (getFeed_run _ _ _)).
  change (Feed.Entries (Feed.withItems f (Some ∅))) with (Feed.Entries f).
  match goal with |- context [mkState _ ?h0 ?tr0] => generalize h0, tr0 end.
  intros h0 tr0.
  destruct (describeLoop_upto (Feed.withItems f (Some ∅)) [] before (Some e :: after)
              h0 tr0 Hf Hbefore) as [h1 H1].
  rewrite Hf, length_app, seq_app. simpl.
  erewrite bind_Panic; [done|].
  rewrite forEach_app.
  simpl in H1. rewrite (bind_Ok _ _ _ _ _ H1).
  cbn [forEach]. erewrite bind_Panic; [done|].
  apply describeEntry_TypeAssertion with (e := e); try done.
  simpl. rewrite list_lookup_middle; [done|]. by rewrite length_fmap.
Qed.

Lemma collectAll_NilDereference f entries all h tr :
  Exists (λ p, resolves (Feed.Feeds f) p = false) entries →
  collectAll entries all (mkState (Some f) h tr) =
    Panic NilDereference (mkState (Some f) h tr).
Proof.
  intros Hex. revert all.
  induction Hex as [p entries Hp|p entries Hex IH]; intros all; simpl.
  - destruct p as [e|]; [|done]. simpl in Hp. run.
    by destruct (Feed.Feeds f !! FeedItem.Source e) as [[src|]|].
  - destruct p as [e|]; [|done]. run.
    destruct (Feed.Feeds f !! FeedItem.Source e) as [[src|]|]; try done. simpl.
    destruct (Source.ExcludeFromAll src); simpl; apply IH.
Qed.

(** C1.  An entry whose [Source] is not a key of [Feeds] is not left out
    of the "all" tab: line 209 reads [ExcludeFromAll] through the nil
    pointer the map lookup gives, and [processFeed] panics.  (The entries
    are taken to pass the description loop, which runs first.) *)
Theorem all_tab_unknown_source (allStr : string) (s : State) (f : Feed.t)
    (e : FeedItem.t) :
  feed s = Some f →
  forallb describable (Feed.Entries f) = true →
  Some e ∈ Feed.Entries f →
  Feed.Feeds f !! FeedItem.Source e = None →
  faultOf (processFeed allStr s) = Some NilDereference.
Proof.
  intros Hs Hdesc He Hkey. destruct s as [v h tr]; simpl in Hs; subst v.
  apply forallb_true_Forall in Hdesc.
  unfold processFeed.
  rewrite (bind_Ok _ _ _ _ _ (getFeed_run _ _ _)).
  rewrite (bind_Ok _ _ _ _ _ (emit_run _ _ _ _)).
  rewrite (bind_Ok _ _ _ _ _ (getFeed_run _ _ _)).
  rewrite (bind_Ok _ _ _ _ _ (setFeed_run _ _ _ _)).
  rewrite (bind_Ok _ _ _ _ _ (getFeed_run _ _ _)).
  change (Feed.Entries (Feed.withItems f (Some ∅))) with (Feed.Entries f).
  match goal with |- context [mkState _ ?h0 ?tr0] => generalize h0, tr0 end.
  intros h0 tr0.
  destruct (describeLoop_Ok (Feed.withItems f (Some ∅)) [] (Feed.Entries f)
              h0 tr0 eq_refl Hdesc) as [h1 H1].
  simpl in H1. rewrite (bind_Ok _ _ _ _ _ H1).
  rewrite (bind_Ok _ _ _ _ _ (getFeed_run _ _ _)).
  erewrite bind_Panic; [done|].
  apply collectAll_NilDereference. simpl.
  apply Exists_fmap, Exists_exists. exists (Some e). split; [done|].
  simpl. by rewrite Hkey.
Qed.

(** *** The bucket of a source *)

Lemma appendItems_lookup m title l :
  default [] (appendItems m title l !! title) = default [] (m !! title) ++ l.
Proof.
  destruct l; simpl; [by rewrite app_nil_r|]. by rewrite lookup_insert_eq.
Qed.

Lemma appendItems_lookup_ne m title l t :
  title ≠ t → appendItems m title l !! t = m !! t.
Proof. intros Hne. destruct l; simpl; [done|]. by rewrite lookup_insert_ne. Qed.

Lemma foldl_sourceStep_other es (kvs : list (string * ptr Source.t)) m t :
  (∀ key src, (key, Some src) ∈ kvs → Source.Title src ≠ t) →
  foldl (sourceStep es) m kvs !! t = m !! t.
Proof.
  revert m. induction kvs as [|[key p] kvs IH]; intros m H; simpl; [done|].
  rewrite IH.
  - unfold sourceStep. simpl. destruct p as [src|]; [|done].
    apply appendItems_lookup_ne, (H key). by left.
  - intros key' src' Hin. apply (H key'). by right.
Qed.

Lemma pick_inRange (es : FeedItems) i :
  inRange es i = true → (0 ≤ i)%Z ∧ es !! Z.to_nat i = Some (pick es i).
Proof.
  unfold inRange, pick. intros [H0 Hlt]%andb_true_iff.
  apply Z.leb_le in H0. apply Z.ltb_lt in Hlt. split; [done|].
  destruct (es !! Z.to_nat i) eqn:Hl; [done|].
  apply lookup_ge_None in Hl. lia.
Qed.

(** The bucket of a source whose title no other source has, and which is
    not the label of the "all" tab. *)
Lemma normalItems_unique allStr f key src :
  Feed.Feeds f !! key = Some (Some src) →
  Source.Title src ≠ allStr →
  (∀ key' src', Feed.Feeds f !! key' = Some (Some src') →
                Source.Title src' = Source.Title src → key' = key) →
  default [] (normalItems allStr f !! Source.Title src) =
    pick (normalEntries f) <$> Source.Entries src.
Proof.
  intros Hkey Hall Huniq. unfold normalItems.
  assert ((key, Some src) ∈ rangeFeeds (Feed.Feeds f)) as Hin.
  { rewrite rangeFeeds_perm. by apply elem_of_map_to_list. }
  assert (NoDup (rangeFeeds (Feed.Feeds f)).*1) as Hnd.
  { rewrite rangeFeeds_perm. apply NoDup_fst_map_to_list. }
  assert (∀ key' src', (key', Some src') ∈ rangeFeeds (Feed.Feeds f) →
            Source.Title src' = Source.Title src → key' = key) as Huniq'.
  { intros key' src' Hin'. apply Huniq.
    rewrite rangeFeeds_perm in Hin'. by apply elem_of_map_to_list. }
  clear Huniq Hkey.
  destruct (list_elem_of_split _ _ Hin) as (l1 & l2 & Hsplit).
  rewrite Hsplit in *. clear Hsplit Hin.
  rewrite fmap_app, fmap_cons in Hnd. simpl in Hnd.
  apply NoDup_app in Hnd as (_ & Hl1 & [Hl2 _]%NoDup_cons).
  rewrite foldl_app. simpl.
  rewrite foldl_sourceStep_other; cycle 1.
  { intros key' src' Hin' Ht. apply Hl2.
    rewrite <- (Huniq' key' src'); [|set_solver|done].
    apply list_elem_of_fmap. by exists (key', Some src'). }
  unfold sourceStep at 1. simpl. rewrite appendItems_lookup.
  rewrite foldl_sourceStep_other; cycle 1.
  { intros key' src' Hin' Ht. apply (Hl1 key).
    - rewrite <- (Huniq' key' src'); [|set_solver|done].
      apply list_elem_of_fmap. by exists (key', Some src').
    - set_solver. }
  by rewrite lookup_singleton_ne.
Qed.

(** X18.  The "all" tab on the documents on which line 209 does not fault
    (and on which no source is titled like the tab): the entries of the
    sources that are not excluded, in the order of the document. *)
Lemma all_tab_resolved (allStr : string) (s : State) (f : Feed.t) :
  feed s = Some f →
  wellFormed f = true →
  (∀ key src, Feed.Feeds f !! key = Some (Some src) → Source.Title src ≠ allStr) →
  ∃ s' f' items all,
    processFeed allStr s = Ok tt s' ∧ feed s' = Some f' ∧
    Feed.Items f' = Some items ∧ items !! allStr = Some all ∧
    all `sublist_of` Feed.Entries f' ∧
    ∀ e, Some e ∈ all ↔
         Some e ∈ Feed.Entries f' ∧
         ∃ src, Feed.Feeds f !! FeedItem.Source e = Some (Some src) ∧
                Source.ExcludeFromAll src = false.
Proof.
  intros Hs Hwf Htitles. destruct s as [v h tr]; simpl in Hs; subst v.
  destruct (processFeed_Ok allStr f h tr Hwf) as [h' H].
  exists (mkState (Some (normalForm allStr f)) h' (tr ++ processFeedTrace f)),
    (normalForm allStr f), (normalItems allStr f), (allBucket f).
  split; [exact H|]. split; [done|]. split; [done|]. split.
  { unfold normalItems. rewrite foldl_sourceStep_other.
    - apply lookup_singleton_eq.
    - intros key src Hin. apply (Htitles key).
      rewrite rangeFeeds_perm in Hin. by apply elem_of_map_to_list. }
  split; [apply sublist_filter|].
  intros e. unfold allBucket. rewrite list_elem_of_filter. simpl.
  split.
  - intros [Hinc Hin]. split; [done|].
    destruct (Feed.Feeds f !! FeedItem.Source e) as [[src|]|]; try done.
    exists src. split; [done|]. by destruct (Source.ExcludeFromAll src).
  - intros [Hin (src & Hsrc & Hex)]. split; [|done]. by rewrite Hsrc, Hex.
Qed.

(** C2, as the code has it.  On a well-formed document, whose indices
    are all in range, the bucket of a source (its title being its own, and
    not the label of "all") holds the entries at its indices, in the order
    of its indices.  An index out of range is not skipped: with one in any
    source, [processFeed] does not run to its end.  In a document that is
    in order but for its indices (every entry there, with an absent, null
    or string description and a source that is in [Feeds]; no nil source),
    it panics with index out of range at the first such index it meets, the
    sources being visited in the order of the [range] loop: the
    descriptions, the "all" tab and the calls of the source listing are
    done by then, and the buckets hold what was appended before, that is
    the entries of the sources visited earlier and those at the indices
    that precede the offending one in its source. *)
Theorem per_source_buckets (allStr : string) (s : State) (f : Feed.t) :
  feed s = Some f →
  (wellFormed f = true →
   ∃ s' f' items,
     processFeed allStr s = Ok tt s' ∧ feed s' = Some f' ∧
     Feed.Items f' = Some items ∧
     ∀ key src,
       Feed.Feeds f !! key = Some (Some src) →
       Source.Title src ≠ allStr →
       (∀ key' src', Feed.Feeds f !! key' = Some (Some src') →
                     Source.Title src' = Source.Title src → key' = key) →
       Forall2 (λ i p, (0 ≤ i)%Z ∧ Feed.Entries f' !! Z.to_nat i = Some p)
         (Source.Entries src) (default [] (items !! Source.Title src))) ∧
  (forallb describable (Feed.Entries f) = true →
   forallb (resolves (Feed.Feeds f)) (Feed.Entries f) = true →
   (∀ key, Feed.Feeds f !! key ≠ Some None) →
   ∀ key src i,
     Feed.Feeds f !! key = Some (Some src) →
     i ∈ Source.Entries src →
     (i < 0 ∨ Z.of_nat (length (Feed.Entries f)) ≤ i)%Z →
     ∃ visited key' src' after ok j rest s' f',
       rangeFeeds (Feed.Feeds f) = visited ++ (key', Some src') :: after ∧
       (∀ k src0 i0, (k, Some src0) ∈ visited → i0 ∈ Source.Entries src0 →
          (0 ≤ i0 < Z.of_nat (length (Feed.Entries f)))%Z) ∧
       Source.Entries src' = ok ++ j :: rest ∧
       (∀ i0, i0 ∈ ok → (0 ≤ i0 < Z.of_nat (length (Feed.Entries f)))%Z) ∧
       (j < 0 ∨ Z.of_nat (length (Feed.Entries f)) ≤ j)%Z ∧
       processFeed allStr s =
         Panic (IndexOutOfRange j (length (Feed.Entries f))) s' ∧
       trace s' = trace s ++ processFeedTrace f ∧
       feed s' = Some f' ∧
       Feed.Entries f' = normalEntries f ∧
       Feed.Items f' =
         Some (appendItems
                 (foldl (sourceStep (normalEntries f)) {[allStr := allBucket f]} visited)
                 (Source.Title src') (pick (normalEntries f) <$> ok))) ∧
  (∀ key src i,
     Feed.Feeds f !! key = Some (Some src) →
     i ∈ Source.Entries src →
     (i < 0 ∨ Z.of_nat (length (Feed.Entries f)) ≤ i)%Z →
     isOk (processFeed allStr s) = false).
Proof.
  intros Hs. destruct s as [v h tr]; simpl in Hs; subst v.
  split; [|split]; cycle 2.
  { intros key src i Hkey Hi Hout. apply processFeed_Panic.
    unfold wellFormed. apply andb_false_iff. right.
    apply forallb_false_Exists, Exists_exists. exists (key, Some src).
    split; [by apply elem_of_map_to_list|]. simpl.
    apply forallb_false_Exists, Exists_exists. exists i. split; [done|].
    unfold inRange. apply andb_false_iff.
    destruct Hout as [Hlt|Hge]; [left; by apply Z.leb_gt | right; by apply Z.ltb_ge]. }
  - intros Hwf. destruct (processFeed_Ok allStr f h tr Hwf) as [h' H].
    eexists _, _, _. split; [exact H|]. split; [done|]. split; [done|].
    intros key src Hkey Hall Huniq.
    rewrite (normalItems_unique allStr f key src Hkey Hall Huniq).
    apply Forall2_fmap_r, Forall_Forall2_diag, Forall_forall.
    intros i Hi. apply pick_inRange.
    rewrite (inRange_length _ (Feed.Entries f)) by apply length_normalEntries.
    unfold wellFormed in Hwf. apply andb_true_iff in Hwf as [_ Hsrc].
    apply forallb_true_Forall in Hsrc. rewrite Forall_forall in Hsrc.
    apply elem_of_map_to_list in Hkey. apply Hsrc in Hkey. simpl in Hkey.
    apply forallb_true_Forall in Hkey. rewrite Forall_forall in Hkey. by apply Hkey.
  - intros Hdesc Hres Hnonil key src i Hkey Hi Hout.
    pose proof (processFeed_prefix allStr f h tr) as Hpre.
    rewrite Hdesc, Hres in Hpre. simpl in Hpre.
    rewrite (proj2 (forallb_true_Forall _ _)) in Hpre; cycle 1.
    { apply Forall_forall. intros k _. unfold listable.
      pose proof (Hnonil k) as Hk. by destruct (Feed.Feeds f !! k) as [[|]|]. }
    destruct Hpre as [h1 Hrun].
    assert (∀ i0, inRange (normalEntries f) i0 = inRange (Feed.Entries f) i0) as Hlen.
    { intros i0. apply inRange_length, length_normalEntries. }
    destruct (first_false (λ kv, sourceOK (normalEntries f) kv.2)
                (rangeFeeds (Feed.Feeds f)))
      as (visited & [key' p'] & after & Hsplit & Hvisited & Hbad).
    { apply Exists_exists. exists (key, Some src). split.
      - rewrite rangeFeeds_perm. by apply elem_of_map_to_list.
      - simpl. apply forallb_false_Exists, Exists_exists. exists i.
        split; [done|]. rewrite Hlen. unfold inRange. apply andb_false_iff.
        destruct Hout as [Hlt|Hge];
          [left; by apply Z.leb_gt | right; by apply Z.ltb_ge]. }
    destruct p' as [src'|]; cycle 1.
    { exfalso. apply (Hnonil key'). apply elem_of_map_to_list.
      rewrite <- rangeFeeds_perm, Hsplit. apply elem_of_app. right. by left. }
    simpl in Hbad.
    destruct (first_false (inRange (normalEntries f)) (Source.Entries src'))
      as (ok & j & rest & Hentries & Hok & Hj).
    { by apply forallb_false_Exists. }
    destruct (indexLoop_upto (beforeIndexing allStr f) {[allStr := allBucket f]}
                visited after key' src' ok j rest h1 (tr ++ processFeedTrace f)
                eq_refl Hvisited Hentries Hok Hj) as [h2 H2].
    rewrite Hsplit in Hrun. rewrite H2 in Hrun. simpl in Hrun.
    rewrite length_normalEntries in Hrun.
    eexists visited, key', src', after, ok, j, rest, _, _.
    split; [done|]. split.
    { intros k src0 i0 Hin Hi0. apply inRange_spec. rewrite <- Hlen.
      rewrite Forall_forall in Hvisited. specialize (Hvisited _ Hin). simpl in Hvisited.
      apply forallb_true_Forall in Hvisited. rewrite Forall_forall in Hvisited.
      by apply Hvisited. }
    split; [done|]. split.
    { intros i0 Hi0. apply inRange_spec. rewrite <- Hlen.
      rewrite Forall_forall in Hok. by apply Hok. }
    split.
    { rewrite Hlen in Hj. unfold inRange in Hj. apply andb_false_iff in Hj.
      destruct Hj as [Hj|Hj]; [left; by apply Z.leb_gt | right; by apply Z.ltb_ge]. }
    split; [exact Hrun|]. done.
Qed.

End NormalizationClaims.

(** ** The accessors *)

Section Accessors.
Context `{Ext : Externals}.

Lemma forEach_AddFeed (items : list FeedItem.t) v h tr :
  forEach (Some <$> items) (λ p, i ← deref p; emit (addFeedCall i)) (mkState v h tr) =
    Ok tt (mkState v h (tr ++ (addFeedCall <$> items))).
Proof.
  revert tr. induction items as [|i items IH]; intros tr; simpl.
  { by rewrite app_nil_r. }
  run. rewrite IH. by rewrite <- app_assoc.
Qed.

(** C8.  [FeedByName] calls nothing and does not fault when there is no
    feed, no [Items] map, or no bucket of that name; otherwise it calls
    [AddFeed] once for each entry of the bucket, in the order of the
    bucket, with the entry's title, description, image and link. *)
Theorem FeedByName_spec (name : string) (s : State) :
  (feed s = None ∨
   (∃ f, feed s = Some f ∧ Feed.Items f = None) ∨
   (∃ f m, feed s = Some f ∧ Feed.Items f = Some m ∧ m !! name = None) →
     FeedByName name s = Ok tt s) ∧
  (∀ f m (items : list FeedItem.t),
     feed s = Some f → Feed.Items f = Some m → m !! name = Some (Some <$> items) →
     FeedByName name s =
       Ok tt (mkState (feed s) (history s)
                (trace s ++ ((λ i, EvAddFeed (FeedItem.Title i) (FeedItem.Description i)
                                     (FeedItem.Image i) (FeedItem.Link i)) <$> items)))).
Proof.
  destruct s as [v h tr]. unfold FeedByName. simpl. split.
  - intros [-> | [(f & -> & Hm) | (f & m & -> & Hm & Hname)]]; run; [done|..].
    + by rewrite Hm.
    + by rewrite Hm, Hname.
  - intros f m items -> Hm Hname. run. rewrite Hm, Hname.
    apply forEach_AddFeed.
Qed.

End Accessors.

(** ** The fetch pipeline *)

Section Fetch.
Context `{Ext : Externals}.

Lemma determineLocale_run defaultLocale s :
  determineLocale defaultLocale s =
    Ok (chosenLocale defaultLocale)
       (mkState (feed s) (history s) (trace s ++ localeEvents defaultLocale)).
Proof.
  unfold chosenLocale, localeEvents, determineLocale. destruct s as [v h tr].
  destruct (EqualFold en _); simpl.
  - run. destruct (decide (GetCountry (10 * Second) = "")); simpl.
    + by rewrite <- app_assoc.
    + by destruct (EqualFold "ir" (GetCountry (10 * Second))),
           (EqualFold "my" (GetCountry (10 * Second))).
  - run. by rewrite app_nil_r.
Qed.

Lemma getFeedURL_run feedEndpoint defaultLocale s :
  getFeedURL feedEndpoint defaultLocale s =
    Ok (feedURLOf feedEndpoint defaultLocale)
       (mkState (feed s) (history s)
          (trace s ++ localeEvents defaultLocale ++
             [EvDebugf "Returning feed URL: %v"
                [LStr (feedURLOf feedEndpoint defaultLocale)]])).
Proof.
  unfold getFeedURL.
  rewrite (bind_Ok _ _ _ _ _ (determineLocale_run _ _)). run.
  by rewrite <- app_assoc.
Qed.

Lemma handleError_run err v h tr :
  handleError err (mkState v h tr) = Ok tt (mkState None (h ++ [None]) (tr ++ [EvError err])).
Proof. done. Qed.

(** C3.  Whichever step of the fetch fails (building the request,
    building the proxied client, the round trip, opening the gzip reader,
    reading the body, decoding the JSON), [doGetFeed] returns with [feed]
    nil, whatever [feed] held before, and [CurrentFeed] then gives nil. *)
Theorem failed_fetch_clears_feed (feedEndpoint locale allStr proxyAddr : string)
    (s : State) :
  FetchFailure
    (feedURLOf feedEndpoint (if isSupported locale then locale else en)) proxyAddr →
  ∃ s',
    doGetFeed feedEndpoint locale allStr proxyAddr s = Ok tt s' ∧
    feed s' = None ∧
    CurrentFeed s' = Ok None s'.
Proof.
  intros Hfail. destruct s as [v h tr]. unfold doGetFeed.
  rewrite (bind_Ok _ _ _ _ _ (setFeed_run _ _ _ _)).
  replace (if negb (isSupported locale) then en else locale)
    with (if isSupported locale then locale else en)
    by (by destruct (isSupported locale)).
  rewrite (bind_Ok _ _ _ _ _ (getFeedURL_run _ _ _)).
  cbn [feed history trace].
  set (url := feedURLOf _ _) in *.
  destruct Hfail as [err Hreq
                    |req err Hreq Hproxy Hclient
                    |req client err Hreq Hclient Hdo
                    |req client res err Hreq Hclient Hdo Hgz
                    |req client res gz err Hreq Hclient Hdo Hgz Hread
                    |req client res gz contents partial err Hreq Hclient Hdo Hgz Hread Hparse];
    unfold clientFor, requestOf in *; rewrite Hreq.
  - rewrite handleError_run. by eexists.
  - rewrite decide_False by done. rewrite Hclient, handleError_run. by eexists.
  - rewrite Hclient. rewrite (bind_Ok _ _ _ _ _ (emit_run _ _ _ _)).
    rewrite Hdo, handleError_run. by eexists.
  - rewrite Hclient. rewrite (bind_Ok _ _ _ _ _ (emit_run _ _ _ _)).
    rewrite Hdo. unfold deferBodyClose. rewrite Hgz, handleError_run. by eexists.
  - rewrite Hclient. rewrite (bind_Ok _ _ _ _ _ (emit_run _ _ _ _)).
    rewrite Hdo. unfold deferBodyClose. rewrite Hgz, Hread, handleError_run.
    by eexists.
  - rewrite Hclient. rewrite (bind_Ok _ _ _ _ _ (emit_run _ _ _ _)).
    rewrite Hdo. unfold deferBodyClose. rewrite Hgz, Hread.
    rewrite (bind_Ok _ _ _ _ _ (getFeed_run _ _ _)). rewrite Hparse.
    rewrite (bind_Ok _ _ _ _ _ (setFeed_run _ _ _ _)).
    rewrite handleError_run. by eexists.
Qed.

End Fetch.

(** ** What a run leaves behind *)

Create HintDb extending.

Lemma extends_refl s : extends s s.
Proof. by split. Qed.

Lemma extends_trans s1 s2 s3 : extends s1 s2 → extends s2 s3 → extends s1 s3.
Proof. intros [??] [??]. split; by etrans. Qed.

Lemma extending_ret {A} (a : A) : extending (mret a).
Proof. intros s. apply extends_refl. Qed.

Lemma extending_panic {A} f : extending (@panic A f).
Proof. intros s. apply extends_refl. Qed.

Lemma extending_bind {A B} (m : M A) (k : A → M B) :
  extending m → (∀ a, extending (k a)) → extending (m ≫= k).
Proof.
  intros Hm Hk s. unfold mbind, M_bind. specialize (Hm s).
  destruct (m s) as [a s1|f s1]; [|done].
  eapply extends_trans; [exact Hm|apply Hk].
Qed.

Lemma extending_emit e : extending (emit e).
Proof. intros s. split; simpl; [done|]. by apply prefix_app_r. Qed.

Lemma extending_setFeed v : extending (setFeed v).
Proof. intros s. split; simpl; [|done]. by apply prefix_app_r. Qed.

Lemma extending_readFeed : extending readFeed.
Proof. intros s. apply extends_refl. Qed.

Lemma extending_deref {A} (p : ptr A) : extending (deref p).
Proof. destruct p; [apply extending_ret|apply extending_panic]. Qed.

Lemma extending_getFeed : extending getFeed.
Proof.
  apply extending_bind; [apply extending_readFeed|]. intros p. apply extending_deref.
Qed.

Lemma extending_index {A} (l : list A) i : extending (index l i).
Proof.
  unfold index. destruct (if (0 <=? i)%Z then _ else _);
    [apply extending_ret|apply extending_panic].
Qed.

Lemma extending_forEach {A} (l : list A) (body : A → M unit) :
  (∀ a, extending (body a)) → extending (forEach l body).
Proof.
  intros Hbody. induction l as [|a l IH]; simpl; [apply extending_ret|].
  apply extending_bind; [apply Hbody|]. by intros _.
Qed.

Lemma extending_deferBodyClose {A} (m : M A) :
  extending m → extending (deferBodyClose m).
Proof.
  intros Hm s. unfold deferBodyClose. destruct (Hm s) as [Hh Ht].
  destruct (m s) as [a s1|f s1]; (split; simpl in *; [done|]);
    by apply prefix_app_r.
Qed.

#[global] Hint Resolve extending_ret extending_panic extending_emit extending_setFeed
  extending_readFeed extending_deref extending_getFeed extending_index : extending.

(** One step of the proof that a piece of code is [extending]: through a
    bind, a loop, a [defer], or a branch. *)
Ltac extending_step :=
  first
    [ solve [auto with extending nocore]
    | apply extending_bind; [|intros ?]
    | apply extending_forEach; intros ?
    | apply extending_deferBodyClose
    | match goal with
      | |- extending (match ?x with _ => _ end) => destruct x
      | |- extending (let _ := _ in _) => cbv zeta
      end ].

Section Extending.
Context `{Ext : Externals}.

Lemma extending_handleError err : extending (handleError err).
Proof. unfold handleError. repeat extending_step. Qed.

Lemma extending_determineLocale d : extending (determineLocale d).
Proof. unfold determineLocale. repeat extending_step. Qed.

Lemma extending_getFeedURL ep d : extending (getFeedURL ep d).
Proof.
  unfold getFeedURL. apply extending_bind; [apply extending_determineLocale|].
  intros l. repeat extending_step.
Qed.

Lemma extending_describeEntry i : extending (describeEntry i).
Proof. unfold describeEntry. repeat extending_step. Qed.

Lemma extending_collectAll entries all : extending (collectAll entries all).
Proof.
  revert all. induction entries as [|p entries IH]; intros all; simpl.
  { apply extending_ret. }
  repeat extending_step; apply IH.
Qed.

Lemma extending_assignItems key items : extending (assignItems key items).
Proof. unfold assignItems. repeat extending_step. Qed.

Lemma extending_readItems key : extending (readItems key).
Proof. unfold readItems. repeat extending_step. Qed.

Lemma extending_announceSource key : extending (announceSource key).
Proof. unfold announceSource. repeat extending_step. Qed.

Lemma extending_appendEntry title i : extending (appendEntry title i).
Proof.
  unfold appendEntry.
  repeat first [apply extending_readItems | apply extending_assignItems
               | extending_step].
Qed.

Lemma extending_indexSource p : extending (indexSource p).
Proof.
  unfold indexSource. repeat first [apply extending_appendEntry | extending_step].
Qed.

Lemma extending_processFeed allStr : extending (processFeed allStr).
Proof.
  unfold processFeed.
  repeat first [ apply extending_describeEntry | apply extending_collectAll
               | apply extending_assignItems | apply extending_announceSource
               | apply extending_indexSource | extending_step ].
Qed.

End Extending.

(** ** The fetch pipeline: the claims *)

Section FetchClaims.
Context `{Ext : Externals}.

(** [doGetFeed] after its first two steps: the empty document is in
    [feed] and the URL has been built and logged. *)
Lemma doGetFeed_start feedEndpoint locale allStr proxyAddr v h tr :
  let url := feedURLOf feedEndpoint (if isSupported locale then locale else en) in
  extends
    (mkState (Some Feed.zero) (h ++ [Some Feed.zero])
       (tr ++ localeEvents (if isSupported locale then locale else en) ++
          [EvDebugf "Returning feed URL: %v" [LStr url]]))
    (finalState (doGetFeed feedEndpoint locale allStr proxyAddr (mkState v h tr))).
Proof.
  intros url. unfold doGetFeed.
  rewrite (bind_Ok _ _ _ _ _ (setFeed_run _ _ _ _)).
  replace (if negb (isSupported locale) then en else locale)
    with (if isSupported locale then locale else en)
    by (by destruct (isSupported locale)).
  rewrite (bind_Ok _ _ _ _ _ (getFeedURL_run _ _ _)).
  cbn [feed history trace]. fold url.
  match goal with
  | |- extends ?s1 (finalState (?m ?s1)) => cut (extending m); [intros He; apply He|]
  end.
  repeat first [ apply extending_handleError | apply extending_processFeed
               | extending_step ].
Qed.

(** How [doGetFeed] ends when it returns: by [handleError], or by a
    [processFeed] that ran to its end. *)
Lemma doGetFeed_returns feedEndpoint locale allStr proxyAddr s :
  isOk (doGetFeed feedEndpoint locale allStr proxyAddr s) = true →
  feed (finalState (doGetFeed feedEndpoint locale allStr proxyAddr s)) = None ∨
  ∃ f, wellFormed f = true ∧
       feed (finalState (doGetFeed feedEndpoint locale allStr proxyAddr s)) =
         Some (normalForm allStr f).
Proof.
  destruct s as [v h tr]. unfold doGetFeed.
  rewrite (bind_Ok _ _ _ _ _ (setFeed_run _ _ _ _)).
  rewrite (bind_Ok _ _ _ _ _ (getFeedURL_run _ _ _)).
  cbn [feed history trace].
  destruct (NewRequest _ _) as [req|err]; [|by left].
  destruct (if decide (proxyAddr = "") then _ else _) as [client|err]; [|by left].
  rewrite (bind_Ok _ _ _ _ _ (emit_run _ _ _ _)).
  destruct (Do _ _) as [res|err]; [|by left].
  unfold deferBodyClose.
  destruct (NewReader res) as [gz|err]; [|by left].
  destruct (ReadAll gz) as [contents|err]; [|by left].
  rewrite (bind_Ok _ _ _ _ _ (getFeed_run _ _ _)).
  destruct (Unmarshal contents Feed.zero) as [f' [err|]].
  { rewrite (bind_Ok _ _ _ _ _ (setFeed_run _ _ _ _)). by left. }
  rewrite (bind_Ok _ _ _ _ _ (setFeed_run _ _ _ _)).
  destruct (wellFormed f') eqn:Hwf.
  - match goal with |- context [processFeed allStr (mkState _ ?h1 ?tr1)] =>
      destruct (processFeed_Ok allStr f' h1 tr1 Hwf) as [h2 ->]
    end.
    intros _. right. by exists f'.
  - match goal with |- context [processFeed allStr (mkState _ ?h1 ?tr1)] =>
      pose proof (processFeed_Panic allStr f' h1 tr1 Hwf) as HP;
      destruct (processFeed allStr (mkState _ h1 tr1))
    end; done.
Qed.

(** C4, as the code has it.  [doGetFeed] puts the empty document in
    [feed] before it fetches anything and fills it in place, so that is
    what a reader finds while the fetch runs; once [doGetFeed] has
    returned, [feed] is nil or the normal form of a well-formed
    document. *)
Theorem fetch_builds_in_place (feedEndpoint locale allStr proxyAddr : string)
    (s : State) :
  (∃ later,
     history (finalState (doGetFeed feedEndpoint locale allStr proxyAddr s)) =
       history s ++ Some Feed.zero :: later) ∧
  (isOk (doGetFeed feedEndpoint locale allStr proxyAddr s) = true →
   feed (finalState (doGetFeed feedEndpoint locale allStr proxyAddr s)) = None ∨
   ∃ f, wellFormed f = true ∧
        feed (finalState (doGetFeed feedEndpoint locale allStr proxyAddr s)) =
          Some (normalForm allStr f)).
Proof.
  split; [|apply doGetFeed_returns].
  destruct s as [v h tr].
  destruct (doGetFeed_start feedEndpoint locale allStr proxyAddr v h tr)
    as [[later Hh] _].
  exists later. simpl in *. by rewrite Hh, <- app_assoc.
Qed.

Lemma chosenLocale_en :
  let country := GetCountry (10 * Second) in
  (country = "" → chosenLocale en = en) ∧
  (country ≠ "" → EqualFold "ir" country = true → chosenLocale en = "fa_IR") ∧
  (country ≠ "" → EqualFold "ir" country = false → EqualFold "my" country = true →
     chosenLocale en = "ms_MY") ∧
  (country ≠ "" → EqualFold "ir" country = false → EqualFold "my" country = false →
     chosenLocale en = en).
Proof.
  unfold chosenLocale, determineLocale. simpl.
  rewrite EqualFold_refl. simpl. run.
  destruct (decide (GetCountry (10 * Second) = "")) as [Hc|Hc]; simpl.
  - repeat split; done.
  - repeat split; try done.
    + by intros _ ->.
    + by intros _ -> ->.
    + by intros _ -> ->.
Qed.

(** C6, as the code has it.  A locale that is not supported is replaced
    by [en_US] before anything else is done with it, so the fetch runs as
    the fetch of [en_US] does; the locale in the URL is then the one
    [determineLocale] makes of [en_US]: [fa_IR] or [ms_MY] when the
    geolocation says IR or MY, and [en_US] otherwise. *)
Theorem unsupported_locale_defaults (feedEndpoint locale allStr proxyAddr : string)
    (s : State) :
  isSupported locale = false →
  doGetFeed feedEndpoint locale allStr proxyAddr s =
    doGetFeed feedEndpoint en allStr proxyAddr s ∧
  ∃ urlLocale before later,
    trace (finalState (doGetFeed feedEndpoint locale allStr proxyAddr s)) =
      trace s ++ before ++
        EvDebugf "Returning feed URL: %v" [LStr (Sprintf feedEndpoint urlLocale)]
        :: later ∧
    let country := GetCountry (10 * Second) in
    (country = "" → urlLocale = en) ∧
    (country ≠ "" → EqualFold "ir" country = true → urlLocale = "fa_IR") ∧
    (country ≠ "" → EqualFold "ir" country = false → EqualFold "my" country = true →
       urlLocale = "ms_MY") ∧
    (country ≠ "" → EqualFold "ir" country = false → EqualFold "my" country = false →
       urlLocale = en).
Proof.
  intros Hlocale. split.
  { unfold doGetFeed. by rewrite Hlocale. }
  destruct s as [v h tr].
  destruct (doGetFeed_start feedEndpoint locale allStr proxyAddr v h tr)
    as [_ [later Ht]].
  rewrite Hlocale in Ht.
  exists (chosenLocale en), (localeEvents en), later. split.
  { simpl in *. rewrite Ht. unfold feedURLOf. by rewrite <- !app_assoc. }
  apply chosenLocale_en.
Qed.

End FetchClaims.

(** ** Normalization: when it completes, and what the buckets are *)

Section Buckets.
Context `{Ext : Externals}.

Lemma describable_spec p :
  describable p = true ↔
  ∃ e, p = Some e ∧
       (FeedItem.Meta e !! "description" = None ∨
        FeedItem.Meta e !! "description" = Some inil ∨
        ∃ str, FeedItem.Meta e !! "description" = Some (istring str)).
Proof.
  split.
  - intros H. destruct p as [e|]; [|done]. exists e. split; [done|]. simpl in H.
    destruct (FeedItem.Meta e !! "description") as [[]|]; simpl in H;
      try discriminate H; eauto.
  - intros (e & -> & [H|[H|[str H]]]); simpl; by rewrite H.
Qed.

Lemma resolves_spec feeds p :
  resolves feeds p = true ↔
  ∃ e src, p = Some e ∧ feeds !! FeedItem.Source e = Some (Some src).
Proof.
  split.
  - intros H. destruct p as [e|]; [|done]. simpl in H.
    destruct (feeds !! FeedItem.Source e) as [[src|]|] eqn:Hs;
      try discriminate H. by exists e, src.
  - intros (e & src & -> & H). simpl. by rewrite H.
Qed.

Lemma sourceOK_spec (es : FeedItems) p :
  sourceOK es p = true ↔
  ∃ src, p = Some src ∧
         ∀ i, i ∈ Source.Entries src → (0 ≤ i < Z.of_nat (length es))%Z.
Proof.
  destruct p as [src|]; simpl.
  - rewrite forallb_true_Forall, Forall_forall. split.
    + intros H. exists src. split; [done|]. intros i Hi. by apply inRange_spec, H.
    + intros (src' & [= <-] & H) i Hi. by apply inRange_spec, H.
  - split; [done|]. by intros (src & H & _).
Qed.

(** The documents [wellFormed] accepts, spelled out. *)
Lemma wellFormed_spec f :
  wellFormed f = true ↔
  (∀ p, p ∈ Feed.Entries f →
     ∃ e, p = Some e ∧
          (FeedItem.Meta e !! "description" = None ∨
           FeedItem.Meta e !! "description" = Some inil ∨
           ∃ str, FeedItem.Meta e !! "description" = Some (istring str)) ∧
          ∃ src, Feed.Feeds f !! FeedItem.Source e = Some (Some src)) ∧
  (∀ key p, Feed.Feeds f !! key = Some p →
     ∃ src, p = Some src ∧
            ∀ i, i ∈ Source.Entries src →
                 (0 ≤ i < Z.of_nat (length (Feed.Entries f)))%Z).
Proof.
  unfold wellFormed. rewrite !andb_true_iff, !forallb_true_Forall, !Forall_forall.
  split.
  - intros [[Hd Hr] Hs]. split.
    + intros p Hp.
      destruct (proj1 (describable_spec p) (Hd p Hp)) as (e & -> & Hm).
      destruct (proj1 (resolves_spec _ _) (Hr _ Hp)) as (e' & src & [= <-] & Hsrc).
      eauto.
    + intros key p Hkey. apply elem_of_map_to_list in Hkey.
      by apply sourceOK_spec, (Hs (key, p)).
  - intros [He Hs]. repeat split.
    + intros p Hp. destruct (He p Hp) as (e & -> & Hm & _).
      apply describable_spec. eauto.
    + intros p Hp. destruct (He p Hp) as (e & -> & _ & src & Hsrc).
      apply resolves_spec. eauto.
    + intros [key p] Hkv. apply elem_of_map_to_list in Hkv.
      by apply sourceOK_spec, (Hs key).
Qed.

(** X1.  [processFeed] runs to its end exactly on the documents in which
    every entry is there, has an absent, null or string description and
    names a source that is in [Feeds], and in which every source is there
    and has all its indices within the entries; on every other document it
    panics. *)
Theorem processFeed_completes_iff (allStr : string) (s : State) (f : Feed.t) :
  feed s = Some f →
  (isOk (processFeed allStr s) = true ↔
   (∀ p, p ∈ Feed.Entries f →
      ∃ e, p = Some e ∧
           (FeedItem.Meta e !! "description" = None ∨
            FeedItem.Meta e !! "description" = Some inil ∨
            ∃ str, FeedItem.Meta e !! "description" = Some (istring str)) ∧
           ∃ src, Feed.Feeds f !! FeedItem.Source e = Some (Some src)) ∧
   (∀ key p, Feed.Feeds f !! key = Some p →
      ∃ src, p = Some src ∧
             ∀ i, i ∈ Source.Entries src →
                  (0 ≤ i < Z.of_nat (length (Feed.Entries f)))%Z)).
Proof.
  intros Hs. destruct s as [v h tr]; simpl in Hs; subst v.
  rewrite <- wellFormed_spec. destruct (wellFormed f) eqn:Hwf.
  - destruct (processFeed_Ok allStr f h tr Hwf) as [h' ->]. done.
  - rewrite (processFeed_Panic allStr f h tr Hwf). done.
Qed.

(** *** Every bucket *)

Lemma appended_cons (es : FeedItems) t kv kvs :
  appended es t (kv :: kvs) = appended es t [kv] ++ appended es t kvs.
Proof. unfold appended. simpl. by rewrite app_nil_r. Qed.

Lemma sourceStep_lookup es m kv t :
  default [] (sourceStep es m kv !! t) = default [] (m !! t) ++ appended es t [kv].
Proof.
  unfold sourceStep, appended. simpl. rewrite app_nil_r.
  destruct kv.2 as [src|]; [|by rewrite app_nil_r].
  destruct (decide (Source.Title src = t)) as [<-|Hne].
  - apply appendItems_lookup.
  - by rewrite appendItems_lookup_ne, app_nil_r.
Qed.

Lemma foldl_sourceStep_lookup es (kvs : list (string * ptr Source.t)) m t :
  default [] (foldl (sourceStep es) m kvs !! t) =
  default [] (m !! t) ++ appended es t kvs.
Proof.
  revert m. induction kvs as [|kv kvs IH]; intros m; simpl.
  { unfold appended. simpl. by rewrite app_nil_r. }
  by rewrite IH, sourceStep_lookup, (appended_cons es t kv kvs), app_assoc.
Qed.

Lemma normalItems_lookup allStr f t :
  default [] (normalItems allStr f !! t) =
  (if decide (t = allStr) then allBucket f else [])
  ++ appended (normalEntries f) t (rangeFeeds (Feed.Feeds f)).
Proof.
  unfold normalItems. rewrite foldl_sourceStep_lookup. f_equal.
  destruct (decide (t = allStr)) as [->|Hne].
  - by rewrite lookup_singleton_eq.
  - by rewrite lookup_singleton_ne.
Qed.

(** X2.  After normalization the bucket of any name is: for the label of
    "all", the entries of the sources that are not excluded, in document
    order; then, for every source with that title, in the order in which
    the map of sources is visited, the entries at its indices in the order
    of its indices.  So sources that share a title share a bucket, and a
    source titled like the "all" tab adds to that tab. *)
Theorem buckets_by_title (allStr : string) (s : State) (f : Feed.t) :
  feed s = Some f →
  wellFormed f = true →
  ∃ s' f' items,
    processFeed allStr s = Ok tt s' ∧ feed s' = Some f' ∧
    Feed.Items f' = Some items ∧
    ∀ title,
      default [] (items !! title) =
        (if decide (title = allStr)
         then filter (λ p, included (Feed.Feeds f) p = true) (Feed.Entries f')
         else [])
        ++ appended (Feed.Entries f') title (rangeFeeds (Feed.Feeds f)).
Proof.
  intros Hs Hwf. destruct s as [v h tr]; simpl in Hs; subst v.
  destruct (processFeed_Ok allStr f h tr Hwf) as [h' H].
  eexists _, _, _. split; [exact H|]. split; [done|]. split; [done|].
  intros title. apply normalItems_lookup.
Qed.

Lemma sourceStep_is_Some es m kv t :
  is_Some (sourceStep es m kv !! t) ↔
  is_Some (m !! t) ∨
  ∃ src, kv.2 = Some src ∧ Source.Title src = t ∧ Source.Entries src ≠ [].
Proof.
  unfold sourceStep. destruct kv.2 as [src|]; cycle 1.
  { split; [by left|]. by intros [?|(src & ? & _)]. }
  unfold appendItems.
  destruct (Source.Entries src) as [|i l] eqn:Hl; simpl.
  { split; [by left|]. by intros [?|(src' & [= <-] & _ & ?)]. }
  destruct (decide (Source.Title src = t)) as [<-|Hne].
  - rewrite lookup_insert_eq. split; [|done]. intros _. right. exists src.
    by rewrite Hl.
  - rewrite lookup_insert_ne by done. split; [by left|].
    by intros [?|(src' & [= <-] & ? & _)].
Qed.

Lemma foldl_sourceStep_is_Some es (kvs : list (string * ptr Source.t)) m t :
  is_Some (foldl (sourceStep es) m kvs !! t) ↔
  is_Some (m !! t) ∨
  ∃ key src, (key, Some src) ∈ kvs ∧ Source.Title src = t ∧ Source.Entries src ≠ [].
Proof.
  revert m. induction kvs as [|[key p] kvs IH]; intros m; simpl.
  { split; [by left|]. intros [?|(key & src & Hin & _)]; [done|].
    by apply elem_of_nil in Hin. }
  rewrite IH, sourceStep_is_Some. simpl. split.
  - intros [[?|(src & -> & Ht & Hne)]|(key' & src & Hin & Ht & Hne)].
    + by left.
    + right. exists key, src. split; [by left|done].
    + right. exists key', src. split; [by right|done].
  - intros [?|(key' & src & Hin & Ht & Hne)]; [by left; left|].
    apply elem_of_cons in Hin as [[= -> <-]|Hin].
    + left. right. by exists src.
    + right. by exists key', src.
Qed.

(** X3.  After normalization there is a bucket of a name exactly when the
    name is the label of "all", or the title of a source that lists at
    least one entry: the "all" bucket is always there, even when empty, and
    a source without entries gets no bucket. *)
Theorem bucket_names (allStr : string) (s : State) (f : Feed.t) :
  feed s = Some f →
  wellFormed f = true →
  ∃ s' f' items,
    processFeed allStr s = Ok tt s' ∧ feed s' = Some f' ∧
    Feed.Items f' = Some items ∧
    ∀ title,
      is_Some (items !! title) ↔
      title = allStr ∨
      ∃ key src, Feed.Feeds f !! key = Some (Some src) ∧
                 Source.Title src = title ∧ Source.Entries src ≠ [].
Proof.
  intros Hs Hwf. destruct s as [v h tr]; simpl in Hs; subst v.
  destruct (processFeed_Ok allStr f h tr Hwf) as [h' H].
  eexists _, _, _. split; [exact H|]. split; [done|]. split; [done|].
  intros title. unfold normalItems. rewrite foldl_sourceStep_is_Some.
  rewrite lookup_singleton_is_Some.
  split; (intros [?|(key & src & Hin & Ht & Hne)]; [by left|right]);
    exists key, src; (split; [|done]).
  - rewrite rangeFeeds_perm in Hin. by apply elem_of_map_to_list.
  - rewrite rangeFeeds_perm. by apply elem_of_map_to_list.
Qed.

Lemma appended_elem (es : FeedItems) t (kvs : list (string * ptr Source.t)) p :
  Forall (λ kv, sourceOK es kv.2 = true) kvs →
  p ∈ appended es t kvs → p ∈ es.
Proof.
  induction kvs as [|kv kvs IH]; intros Hall Hp.
  { unfold appended in Hp. simpl in Hp. by apply elem_of_nil in Hp. }
  rewrite (appended_cons es t kv kvs) in Hp.
  apply Forall_cons in Hall as [Hkv Hall].
  apply elem_of_app in Hp as [Hp|Hp]; [|by apply IH].
  unfold appended in Hp. simpl in Hp. rewrite app_nil_r in Hp.
  destruct kv.2 as [src|]; [|by apply elem_of_nil in Hp].
  destruct (decide _); [|by apply elem_of_nil in Hp].
  apply list_elem_of_fmap in Hp as (i & -> & Hi).
  simpl in Hkv. apply forallb_true_Forall in Hkv. rewrite Forall_forall in Hkv.
  destruct (pick_inRange es i (Hkv i Hi)) as [_ Hpick].
  by eapply list_elem_of_lookup_2.
Qed.

Lemma normalItems_elem allStr f title bucket p :
  wellFormed f = true →
  normalItems allStr f !! title = Some bucket → p ∈ bucket →
  ∃ e, p = Some e ∧ Some e ∈ normalEntries f.
Proof.
  intros Hwf Hb Hp.
  assert (p ∈ normalEntries f) as Hin.
  { pose proof (normalItems_lookup allStr f title) as HL.
    rewrite Hb in HL. simpl in HL. rewrite HL in Hp.
    apply elem_of_app in Hp as [Hp|Hp].
    - destruct (decide _); [|by apply elem_of_nil in Hp].
      unfold allBucket in Hp. by apply list_elem_of_filter in Hp as [_ ?].
    - eapply appended_elem; [|exact Hp].
      rewrite rangeFeeds_perm.
      unfold wellFormed in Hwf. apply andb_true_iff in Hwf as [_ Hsrc].
      apply forallb_true_Forall in Hsrc.
      eapply Forall_impl; [exact Hsrc|]. intros kv Hkv. simpl in *.
      by rewrite (sourceOK_length _ (Feed.Entries f)) by apply length_normalEntries. }
  destruct p as [e|]; [by exists e|].
  unfold normalEntries in Hin. apply list_elem_of_fmap in Hin as (q & Hq & Hin).
  unfold wellFormed in Hwf. apply andb_true_iff in Hwf as [[Hd _]%andb_true_iff _].
  apply forallb_true_Forall in Hd. rewrite Forall_forall in Hd.
  specialize (Hd q Hin). by destruct q.
Qed.

(** X4.  After normalization whatever is in a bucket is an entry of the
    document: no bucket holds a nil pointer or an entry that is not in
    [Entries]. *)
Theorem bucket_entries (allStr : string) (s : State) (f : Feed.t) :
  feed s = Some f →
  wellFormed f = true →
  ∃ s' f' items,
    processFeed allStr s = Ok tt s' ∧ feed s' = Some f' ∧
    Feed.Items f' = Some items ∧
    ∀ title bucket p,
      items !! title = Some bucket → p ∈ bucket →
      ∃ e, p = Some e ∧ Some e ∈ Feed.Entries f'.
Proof.
  intros Hs Hwf. destruct s as [v h tr]; simpl in Hs; subst v.
  destruct (processFeed_Ok allStr f h tr Hwf) as [h' H].
  eexists _, _, _. split; [exact H|]. split; [done|]. split; [done|].
  intros title bucket p Hb Hp. by eapply normalItems_elem.
Qed.

End Buckets.

(** ** What a run keeps *)

Lemma keeps_ret I {A} (a : A) : keeps I (mret a).
Proof. by intros s H. Qed.

Lemma keeps_panic I {A} f : keeps I (@panic A f).
Proof. by intros s H. Qed.

Lemma keeps_emit I e : keeps I (emit e).
Proof. by intros s H. Qed.

Lemma keeps_setFeed (I : Feed.t → Prop) f : I f → keeps I (setFeed (Some f)).
Proof. intros Hf s _. by exists f. Qed.

Lemma keeps_bind I {A B} (m : M A) (k : A → M B) :
  keeps I m → (∀ a, keeps I (k a)) → keeps I (m ≫= k).
Proof.
  intros Hm Hk s Hs. unfold mbind, M_bind. specialize (Hm s Hs).
  destruct (m s) as [a s1|f s1]; [|done]. by apply Hk.
Qed.

Lemma keeps_getFeed_bind I {B} (k : Feed.t → M B) :
  (∀ f, I f → keeps I (k f)) → keeps I (getFeed ≫= k).
Proof.
  intros Hk s (f & Hf & HI). rewrite (bind_Ok _ _ _ _ _ (getFeed_Some s f Hf)).
  apply Hk; [done|]. by exists f.
Qed.

Lemma keeps_index_bind I {A B} (l : list A) i (k : A → M B) :
  (∀ a, (0 ≤ i)%Z → l !! Z.to_nat i = Some a → keeps I (k a)) →
  keeps I (index l i ≫= k).
Proof.
  intros Hk s Hs. unfold index, mbind, M_bind.
  destruct (0 <=? i)%Z eqn:H0; [|done]. apply Z.leb_le in H0.
  destruct (l !! Z.to_nat i) as [a|] eqn:Hl; [|done]. by apply (Hk a).
Qed.

Lemma keeps_deref_bind I {A B} (p : ptr A) (k : A → M B) :
  (∀ a, p = Some a → keeps I (k a)) → keeps I (deref p ≫= k).
Proof.
  intros Hk s Hs. unfold mbind, M_bind. destruct p as [a|]; [|done]. by apply (Hk a).
Qed.

Lemma keeps_forEach I {A} (l : list A) (body : A → M unit) :
  (∀ a, keeps I (body a)) → keeps I (forEach l body).
Proof.
  intros Hbody. induction l as [|a l IH]; simpl; [apply keeps_ret|].
  apply keeps_bind; [apply Hbody|]. by intros _.
Qed.

Lemma sameEntry_refl p : sameEntry p p.
Proof. destruct p as [e|]; [|done]. by destruct e. Qed.

Lemma frame_refl f : frame f f.
Proof.
  repeat split. apply Forall_Forall2_diag, Forall_forall. intros p _.
  apply sameEntry_refl.
Qed.

Lemma frame_withItems f0 f items : frame f0 f → frame f0 (Feed.withItems f items).
Proof. by intros (? & ? & ?). Qed.

Lemma frame_withDescription f0 f i e desc :
  frame f0 f →
  Feed.Entries f !! i = Some (Some e) →
  frame f0 (Feed.withEntries f
              (<[i := Some (FeedItem.withDescription e desc)]> (Feed.Entries f))).
Proof.
  intros (Hfeeds & Hsorted & Hentries) Hi. repeat split; try done. simpl.
  destruct (Forall2_lookup_r _ _ _ _ _ Hentries Hi) as (p0 & Hp0 & Hsame).
  rewrite <- (list_insert_id _ _ _ Hp0). apply Forall2_insert; [done|].
  destruct p0 as [e0|]; [|done]. simpl in *. by rewrite Hsame.
Qed.

Section Frame.
Context `{Ext : Externals}.

Lemma keeps_describeEntry f0 i : keeps (frame f0) (describeEntry i).
Proof.
  unfold describeEntry.
  apply keeps_getFeed_bind; intros f Hf.
  apply keeps_index_bind; intros p _ _.
  apply keeps_deref_bind; intros entry _.
  apply keeps_bind.
  { destruct (default inil _); first [apply keeps_ret | apply keeps_panic]. }
  intros desc. cbv zeta.
  apply keeps_getFeed_bind; intros f2 Hf2.
  apply keeps_index_bind; intros p2 _ Hp2.
  apply keeps_deref_bind; intros e ->.
  apply keeps_setFeed, frame_withDescription; [done|].
  by rewrite Nat2Z.id in Hp2.
Qed.

Lemma keeps_collectAll f0 entries all : keeps (frame f0) (collectAll entries all).
Proof.
  revert all. induction entries as [|p entries IH]; intros all; simpl.
  { apply keeps_ret. }
  apply keeps_deref_bind; intros entry _.
  apply keeps_getFeed_bind; intros f Hf.
  apply keeps_deref_bind; intros source _.
  destruct (negb _); apply IH.
Qed.

Lemma keeps_assignItems f0 key items : keeps (frame f0) (assignItems key items).
Proof.
  unfold assignItems. apply keeps_getFeed_bind; intros f Hf.
  destruct (Feed.Items f); [|apply keeps_panic].
  by apply keeps_setFeed, frame_withItems.
Qed.

Lemma keeps_readItems f0 key : keeps (frame f0) (readItems key).
Proof.
  unfold readItems. apply keeps_getFeed_bind; intros f Hf. apply keeps_ret.
Qed.

Lemma keeps_announceSource f0 key : keeps (frame f0) (announceSource key).
Proof.
  unfold announceSource. apply keeps_getFeed_bind; intros f Hf.
  destruct (Feed.Feeds f !! key); [|apply keeps_emit].
  apply keeps_deref_bind; intros entry _.
  destruct (negb _); [|apply keeps_emit].
  apply keeps_bind; [apply keeps_emit|]. intros _. apply keeps_emit.
Qed.

Lemma keeps_appendEntry f0 title i : keeps (frame f0) (appendEntry title i).
Proof.
  unfold appendEntry. apply keeps_getFeed_bind; intros f Hf.
  apply keeps_index_bind; intros entry _ _.
  apply keeps_bind; [apply keeps_readItems|]. intros items.
  apply keeps_assignItems.
Qed.

Lemma keeps_indexSource f0 p : keeps (frame f0) (indexSource p).
Proof.
  unfold indexSource. apply keeps_deref_bind; intros src _.
  apply keeps_forEach. intros i. apply keeps_appendEntry.
Qed.

Lemma keeps_processFeed f0 allStr : keeps (frame f0) (processFeed allStr).
Proof.
  unfold processFeed.
  apply keeps_getFeed_bind; intros f1 Hf1.
  apply keeps_bind; [apply keeps_emit|]; intros _.
  apply keeps_getFeed_bind; intros f2 Hf2.
  apply keeps_bind; [by apply keeps_setFeed, frame_withItems|]; intros _.
  apply keeps_getFeed_bind; intros f3 Hf3.
  apply keeps_bind; [apply keeps_forEach; intros i; apply keeps_describeEntry|];
    intros _.
  apply keeps_getFeed_bind; intros f4 Hf4.
  apply keeps_bind; [apply keeps_collectAll|]; intros all.
  apply keeps_bind; [apply keeps_assignItems|]; intros _.
  apply keeps_getFeed_bind; intros f5 Hf5.
  apply keeps_bind; [apply keeps_forEach; intros key; apply keeps_announceSource|];
    intros _.
  apply keeps_getFeed_bind; intros f6 Hf6.
  apply keeps_forEach. intros kv. apply keeps_indexSource.
Qed.

(** X5.  However [processFeed] ends, by return or by panic, it leaves
    [feed] pointing to a document (it never clears it) with the sources and
    the sorted keys it started with, and with the same entry pointers, the
    entries changed in nothing but their description. *)
Theorem processFeed_frame (allStr : string) (s : State) (f : Feed.t) :
  feed s = Some f →
  ∃ f',
    feed (finalState (processFeed allStr s)) = Some f' ∧
    Feed.Feeds f' = Feed.Feeds f ∧
    Feed.Sorted f' = Feed.Sorted f ∧
    Forall2 sameEntry (Feed.Entries f) (Feed.Entries f').
Proof.
  intros Hs.
  destruct (keeps_processFeed f allStr s) as (f' & Hf' & Hframe).
  { exists f. split; [done|]. apply frame_refl. }
  exists f'. split; [done|]. exact Hframe.
Qed.

(** *** Normalizing again *)

Lemma described_idem e : described (described e) = described e.
Proof. done. Qed.

Lemma describable_describedPtr p : describable (describedPtr p) = describable p.
Proof. by destruct p. Qed.

Lemma normalEntries_idem f : describedPtr <$> normalEntries f = normalEntries f.
Proof.
  unfold normalEntries. rewrite <- list_fmap_compose. apply list_fmap_ext.
  intros i [e|] _; [|done]. simpl. by rewrite described_idem.
Qed.

Lemma normalForm_idem allStr f :
  normalForm allStr (normalForm allStr f) = normalForm allStr f.
Proof.
  unfold normalForm, normalItems, allBucket. simpl.
  change (normalEntries (Feed.mk ?a ?es ?c ?d)) with (describedPtr <$> es).
  by rewrite !normalEntries_idem.
Qed.

Lemma wellFormed_normalForm allStr f :
  wellFormed f = true → wellFormed (normalForm allStr f) = true.
Proof.
  unfold wellFormed. simpl.
  intros [[Hd Hr]%andb_true_iff Hs]%andb_true_iff.
  rewrite !andb_true_iff, !forallb_true_Forall in *. repeat split.
  - unfold normalEntries. apply Forall_fmap.
    eapply Forall_impl; [exact Hd|]. intros p Hp. simpl.
    by rewrite describable_describedPtr.
  - unfold normalEntries. apply Forall_fmap.
    eapply Forall_impl; [exact Hr|]. intros p Hp. simpl.
    by rewrite resolves_described.
  - eapply Forall_impl; [exact Hs|]. intros kv Hkv. simpl in *.
    by rewrite (sourceOK_length _ (Feed.Entries f)) by apply length_normalEntries.
Qed.

(** X6.  [processFeed] builds [Items] anew: whatever buckets the document
    had when it starts (those of an earlier run, say) leave no trace in the
    document it ends with. *)
Theorem stale_buckets_dropped (allStr : string) (s : State) (f : Feed.t)
    (stale : option (gmap string FeedItems)) :
  feed s = Some f →
  wellFormed f = true →
  ∃ s1 s2,
    processFeed allStr s = Ok tt s1 ∧
    processFeed allStr
      (mkState (Some (Feed.withItems f stale)) (history s) (trace s)) = Ok tt s2 ∧
    is_Some (feed s1) ∧ feed s2 = feed s1.
Proof.
  intros Hs Hwf. destruct s as [v h tr]; simpl in Hs; subst v.
  destruct (processFeed_Ok allStr f h tr Hwf) as [h1 H1].
  destruct (processFeed_Ok allStr (Feed.withItems f stale) h tr Hwf) as [h2 H2].
  eexists _, _. split; [exact H1|]. split; [exact H2|]. by split.
Qed.

(** *** The order of the sources *)

Lemma appended_Permutation (es : FeedItems) t (kvs kvs' : list (string * ptr Source.t)) :
  kvs ≡ₚ kvs' → appended es t kvs ≡ₚ appended es t kvs'.
Proof.
  induction 1 as [|kv l l' _ IH|kv1 kv2 l|l1 l2 l3 _ IH1 _ IH2].
  - done.
  - rewrite (appended_cons es t kv l), (appended_cons es t kv l'). by rewrite IH.
  - rewrite (appended_cons es t kv2 (kv1 :: l)), (appended_cons es t kv1 l),
      (appended_cons es t kv1 (kv2 :: l)), (appended_cons es t kv2 l).
    rewrite !app_assoc. apply Permutation_app_tail, Permutation_app_comm.
  - by etrans.
Qed.

Lemma appended_none (es : FeedItems) t (kvs : list (string * ptr Source.t)) :
  (∀ k src, (k, Some src) ∈ kvs → Source.Title src ≠ t) → appended es t kvs = [].
Proof.
  induction kvs as [|[k p] kvs IH]; intros H; [done|].
  rewrite (appended_cons es t (k, p) kvs), IH
    by (intros k' src' Hin; apply (H k'); by right).
  unfold appended. simpl. destruct p as [src|]; [|done].
  rewrite decide_False; [done|]. apply (H k). by left.
Qed.

(** The only source of its title. *)
Lemma appended_single (es : FeedItems) t (kvs : list (string * ptr Source.t)) k src :
  NoDup kvs.*1 →
  (∀ k' src', (k', Some src') ∈ kvs → Source.Title src' = t → k' = k) →
  (k, Some src) ∈ kvs → Source.Title src = t →
  appended es t kvs = pick es <$> Source.Entries src.
Proof.
  intros Hnd Huniq Hin Ht.
  destruct (list_elem_of_split _ _ Hin) as (l1 & l2 & ->).
  rewrite fmap_app, fmap_cons in Hnd. simpl in Hnd.
  apply NoDup_app in Hnd as (_ & Hl1 & [Hl2 _]%NoDup_cons).
  assert (appended es t (l1 ++ (k, Some src) :: l2) =
          appended es t l1 ++ appended es t [(k, Some src)] ++ appended es t l2) as ->.
  { unfold appended. rewrite fmap_app, concat_app. simpl. by rewrite app_nil_r. }
  rewrite (appended_none es t l1), (appended_none es t l2).
  - unfold appended. simpl. rewrite decide_True by done. by rewrite !app_nil_r.
  - intros k' src' Hin' Ht'. apply Hl2.
    rewrite <- (Huniq k' src'); [| |done].
    + apply list_elem_of_fmap. by exists (k', Some src').
    + apply elem_of_app. right. by right.
  - intros k' src' Hin' Ht'. apply (Hl1 k); [|by left].
    rewrite <- (Huniq k' src'); [| |done].
    + apply list_elem_of_fmap. by exists (k', Some src').
    + apply elem_of_app. by left.
Qed.

Lemma titled_dec t (kvs : list (string * ptr Source.t)) :
  (∀ k src, (k, Some src) ∈ kvs → Source.Title src ≠ t) ∨
  (∃ k src, (k, Some src) ∈ kvs ∧ Source.Title src = t).
Proof.
  induction kvs as [|[k p] kvs IH].
  { left. intros k src Hin. by apply elem_of_nil in Hin. }
  destruct IH as [IH|(k' & src' & Hin & Ht)];
    [|right; exists k', src'; split; [by right|done]].
  destruct p as [src|].
  - destruct (decide (Source.Title src = t)) as [Ht|Hne].
    + right. exists k, src. split; [by left|done].
    + left. intros k' src' Hin.
      apply elem_of_cons in Hin as [[= -> ->]|Hin]; [done|by apply (IH k')].
  - left. intros k' src' Hin.
    apply elem_of_cons in Hin as [[=]|Hin]. by apply (IH k').
Qed.

(** With no title shared, the order of the sources does not show. *)
Lemma appended_order (es : FeedItems) t (kvs kvs' : list (string * ptr Source.t)) :
  kvs ≡ₚ kvs' → NoDup kvs.*1 →
  (∀ k1 k2 src1 src2, (k1, Some src1) ∈ kvs → (k2, Some src2) ∈ kvs →
     Source.Title src1 = Source.Title src2 → k1 = k2) →
  appended es t kvs' = appended es t kvs.
Proof.
  intros Hperm Hnd Huniq.
  destruct (titled_dec t kvs) as [Hnone|(k & src & Hin & Ht)].
  - rewrite (appended_none es t kvs) by done. apply appended_none.
    intros k src Hin. apply (Hnone k). by rewrite Hperm.
  - rewrite (appended_single es t kvs k src); try done; cycle 1.
    { intros k' src' Hin' Ht'. apply (Huniq k' k src' src); [done|done|congruence]. }
    apply (appended_single es t kvs' k src); try done.
    + by rewrite <- Hperm.
    + intros k' src' Hin' Ht'. rewrite <- Hperm in Hin'.
      apply (Huniq k' k src' src); [done|done|congruence].
    + by rewrite <- Hperm.
Qed.

Lemma foldl_sourceStep_order es m (kvs kvs' : list (string * ptr Source.t)) :
  kvs ≡ₚ kvs' →
  (∀ t, is_Some (foldl (sourceStep es) m kvs' !! t) ↔
        is_Some (foldl (sourceStep es) m kvs !! t)) ∧
  (∀ t, default [] (foldl (sourceStep es) m kvs' !! t) ≡ₚ
        default [] (foldl (sourceStep es) m kvs !! t)) ∧
  (NoDup kvs.*1 →
   (∀ k1 k2 src1 src2, (k1, Some src1) ∈ kvs → (k2, Some src2) ∈ kvs →
      Source.Title src1 = Source.Title src2 → k1 = k2) →
   foldl (sourceStep es) m kvs' = foldl (sourceStep es) m kvs).
Proof.
  intros Hperm.
  assert (∀ t, is_Some (foldl (sourceStep es) m kvs' !! t) ↔
               is_Some (foldl (sourceStep es) m kvs !! t)) as Hnames.
  { intros t. rewrite !foldl_sourceStep_is_Some.
    split; (intros [?|(k & src & Hin & ?)]; [by left|right]); exists k, src;
      (split; [|done]).
    - by rewrite Hperm.
    - by rewrite <- Hperm. }
  split; [exact Hnames|]. split.
  - intros t. rewrite !foldl_sourceStep_lookup.
    apply Permutation_app_head. by apply appended_Permutation.
  - intros Hnd Huniq. apply map_eq. intros t.
    pose proof (foldl_sourceStep_lookup es kvs' m t) as H'.
    rewrite (appended_order es t kvs kvs' Hperm Hnd Huniq),
      <- foldl_sourceStep_lookup in H'.
    specialize (Hnames t).
    destruct (foldl (sourceStep es) m kvs' !! t) as [l'|],
             (foldl (sourceStep es) m kvs !! t) as [l|]; simpl in H'.
    + by rewrite H'.
    + destruct (proj1 Hnames) as [? ?]; done.
    + destruct (proj2 Hnames) as [? ?]; done.
    + done.
Qed.

Lemma normalEntries_again (again : Externals) g :
  @TrimSpace again = @TrimSpace Ext →
  normalEntries (Ext := again) g = normalEntries (Ext := Ext) g.
Proof.
  intros Heq. unfold normalEntries, describedPtr, described, derivedDescription.
  by rewrite Heq.
Qed.

(** What a second normalization leaves, in a world [again] that visits the
    sources in an order of its own. *)
Lemma normalForm_again (again : Externals) allStr f :
  @TrimSpace again = @TrimSpace Ext →
  normalForm (Ext := again) allStr (normalForm (Ext := Ext) allStr f) =
  Feed.mk (Feed.Feeds f) (normalEntries (Ext := Ext) f)
    (Some (foldl (sourceStep (normalEntries (Ext := Ext) f))
             {[allStr := allBucket (Ext := Ext) f]}
             (rangeFeeds (Externals := again) (Feed.Feeds f))))
    (Feed.Sorted f).
Proof.
  intros Heq.
  assert (normalEntries (Ext := again) (normalForm (Ext := Ext) allStr f) =
          normalEntries (Ext := Ext) f) as He.
  { rewrite (normalEntries_again again (normalForm (Ext := Ext) allStr f) Heq).
    change (normalEntries (Ext := Ext) (normalForm (Ext := Ext) allStr f))
      with (describedPtr (Ext := Ext) <$> normalEntries (Ext := Ext) f).
    apply normalEntries_idem. }
  change (normalForm (Ext := again) allStr (normalForm (Ext := Ext) allStr f)) with
    (Feed.mk (Feed.Feeds f)
       (normalEntries (Ext := again) (normalForm (Ext := Ext) allStr f))
       (Some (foldl (sourceStep
                       (normalEntries (Ext := again) (normalForm (Ext := Ext) allStr f)))
                {[allStr := filter (λ p, included (Feed.Feeds f) p = true)
                              (normalEntries (Ext := again)
                                 (normalForm (Ext := Ext) allStr f))]}
                (rangeFeeds (Externals := again) (Feed.Feeds f))))
       (Feed.Sorted f)).
  by rewrite He.
Qed.

(** X7.  Normalizing a normalized document again, the sources being
    visited in whatever order the second [range] loop takes them: the run
    goes to its end and leaves the sources, the sorted keys, the entries
    with their descriptions and the names of the buckets as they were, and
    in every bucket the same entries, up to their order.  When no two
    sources have the same title, or when the second loop happens to take
    the order of the first, the document is left as it was. *)
Theorem processFeed_idempotent (allStr : string) (s : State) (f : Feed.t)
    (again : Externals) :
  @TrimSpace again = @TrimSpace Ext →
  feed s = Some f →
  wellFormed f = true →
  ∃ s1 s2 f1 f2 items1 items2,
    processFeed (Ext := Ext) allStr s = Ok tt s1 ∧
    processFeed (Ext := again) allStr s1 = Ok tt s2 ∧
    feed s1 = Some f1 ∧ feed s2 = Some f2 ∧
    Feed.Items f1 = Some items1 ∧ Feed.Items f2 = Some items2 ∧
    Feed.Feeds f2 = Feed.Feeds f1 ∧ Feed.Entries f2 = Feed.Entries f1 ∧
    Feed.Sorted f2 = Feed.Sorted f1 ∧
    (∀ title, is_Some (items2 !! title) ↔ is_Some (items1 !! title)) ∧
    (∀ title, default [] (items2 !! title) ≡ₚ default [] (items1 !! title)) ∧
    ((∀ key1 key2 src1 src2,
        Feed.Feeds f !! key1 = Some (Some src1) →
        Feed.Feeds f !! key2 = Some (Some src2) →
        Source.Title src1 = Source.Title src2 → key1 = key2) →
     f2 = f1) ∧
    (rangeFeeds (Externals := again) (Feed.Feeds f) =
       rangeFeeds (Externals := Ext) (Feed.Feeds f) → f2 = f1).
Proof.
  intros Heq Hs Hwf. destruct s as [v h tr]; simpl in Hs; subst v.
  destruct (processFeed_Ok (Ext := Ext) allStr f h tr Hwf) as [h1 H1].
  destruct (processFeed_Ok (Ext := again) allStr (normalForm (Ext := Ext) allStr f) h1
              (tr ++ processFeedTrace f)
              (wellFormed_normalForm allStr f Hwf))
    as [h2 H2].
  rewrite (normalForm_again again allStr f Heq) in H2.
  assert (rangeFeeds (Externals := Ext) (Feed.Feeds f) ≡ₚ
          rangeFeeds (Externals := again) (Feed.Feeds f)) as Hperm.
  { by rewrite (@rangeFeeds_perm Ext), (@rangeFeeds_perm again). }
  destruct (foldl_sourceStep_order (normalEntries (Ext := Ext) f)
              {[allStr := allBucket (Ext := Ext) f]} _ _ Hperm)
    as (Hnames & Hbuckets & Hsame).
  eexists _, _, _, _, _, _. split; [exact H1|]. split; [exact H2|].
  split; [done|]. split; [done|]. split; [done|]. split; [done|].
  split; [done|]. split; [done|]. split; [done|].
  split; [exact Hnames|]. split; [exact Hbuckets|]. split.
  - intros Huniq. unfold normalForm, normalItems. rewrite Hsame; [done| |].
    + rewrite (@rangeFeeds_perm Ext). apply NoDup_fst_map_to_list.
    + intros k1 k2 src1 src2 Hin1 Hin2.
      rewrite (@rangeFeeds_perm Ext) in Hin1, Hin2.
      apply elem_of_map_to_list in Hin1, Hin2. by apply Huniq.
  - intros ->. done.
Qed.

End Frame.

(** ** The accessors, before and after a normalization *)

Lemma readOnly_ret {A} (a : A) : readOnly (mret a).
Proof. by intros s. Qed.

Lemma readOnly_panic {A} f : readOnly (@panic A f).
Proof. by intros s. Qed.

Lemma readOnly_emit e : readOnly (emit e).
Proof. by intros s. Qed.

Lemma readOnly_readFeed : readOnly readFeed.
Proof. by intros s. Qed.

Lemma readOnly_deref {A} (p : ptr A) : readOnly (deref p).
Proof. by destruct p. Qed.

Lemma readOnly_bind {A B} (m : M A) (k : A → M B) :
  readOnly m → (∀ a, readOnly (k a)) → readOnly (m ≫= k).
Proof.
  intros Hm Hk s. unfold mbind, M_bind. specialize (Hm s).
  destruct (m s) as [a s1|f s1]; [|done]. simpl in Hm. destruct Hm as [Hm1 Hm2].
  destruct (Hk a s1) as [Hf Hh]. split; congruence.
Qed.

Lemma readOnly_forEach {A} (l : list A) (body : A → M unit) :
  (∀ a, readOnly (body a)) → readOnly (forEach l body).
Proof.
  intros Hbody. induction l as [|a l IH]; simpl; [apply readOnly_ret|].
  apply readOnly_bind; [apply Hbody|]. by intros _.
Qed.

Lemma all_Some {A} (l : list (ptr A)) :
  (∀ p, p ∈ l → ∃ a, p = Some a) → ∃ l', l = Some <$> l'.
Proof.
  induction l as [|p l IH]; intros H; [by exists []|].
  destruct (H p) as [a ->]; [by left|].
  destruct IH as [l' ->]; [intros q Hq; apply H; by right|].
  by exists (a :: l').
Qed.

Section AccessorsAfter.
Context `{Ext : Externals}.

(** X8.  The three accessors only read: however they end, [CurrentFeed],
    [NumFeedEntries] and [FeedByName] leave [feed], and the document it
    points to, as they found them. *)
Theorem accessors_read_only (name : string) :
  readOnly CurrentFeed ∧ readOnly NumFeedEntries ∧ readOnly (FeedByName name).
Proof.
  split; [apply readOnly_readFeed|]. split.
  - unfold NumFeedEntries, getFeed.
    repeat first [ apply readOnly_bind; [|intros ?] | apply readOnly_readFeed
                 | apply readOnly_deref | apply readOnly_emit | apply readOnly_ret ].
  - unfold FeedByName. apply readOnly_bind; [apply readOnly_readFeed|].
    intros [f|]; [|apply readOnly_ret].
    destruct (Feed.Items f) as [m|]; [|apply readOnly_ret].
    destruct (m !! name) as [items|]; [|apply readOnly_ret].
    apply readOnly_forEach. intros p.
    apply readOnly_bind; [apply readOnly_deref|]. intros i. apply readOnly_emit.
Qed.

(** X9.  [NumFeedEntries] panics on a nil [feed] (before the first fetch,
    after a failed one); otherwise it logs and returns the number of
    entries, which a normalization, however it ends, leaves as it was. *)
Theorem NumFeedEntries_spec (s : State) :
  (feed s = None → NumFeedEntries s = Panic NilDereference s) ∧
  (∀ f, feed s = Some f →
     NumFeedEntries s =
       Ok (length (Feed.Entries f))
          (mkState (feed s) (history s)
             (trace s ++ [EvDebugf "Number of feed entries: %d"
                            [LInt (Z.of_nat (length (Feed.Entries f)))]]))) ∧
  (∀ f allStr, feed s = Some f →
     ∃ s', NumFeedEntries (finalState (processFeed allStr s)) =
             Ok (length (Feed.Entries f)) s').
Proof.
  repeat split.
  - intros Hs. unfold NumFeedEntries. by rewrite (bind_Panic _ _ _ _ _ (getFeed_None s Hs)).
  - intros f Hs. unfold NumFeedEntries.
    by rewrite (bind_Ok _ _ _ _ _ (getFeed_Some s f Hs)).
  - intros f allStr Hs.
    destruct (keeps_processFeed f allStr s) as (f' & Hf' & _ & _ & Hentries).
    { exists f. split; [done|]. apply frame_refl. }
    unfold NumFeedEntries. rewrite (bind_Ok _ _ _ _ _ (getFeed_Some _ f' Hf')).
    rewrite (Forall2_length _ _ _ Hentries). by eexists.
Qed.

(** X10.  After a normalization that has run to its end, [FeedByName]
    does not fault, whatever the name: every bucket holds entries only, and
    [FeedByName] calls [AddFeed] for those of the bucket of that name, in
    order (for none, when there is no such bucket). *)
Theorem FeedByName_after_processFeed (allStr name : string) (s : State) (f : Feed.t) :
  feed s = Some f →
  wellFormed f = true →
  ∃ s1 f' buckets (es : list FeedItem.t),
    processFeed allStr s = Ok tt s1 ∧ feed s1 = Some f' ∧
    Feed.Items f' = Some buckets ∧
    default [] (buckets !! name) = Some <$> es ∧
    FeedByName name s1 =
      Ok tt (mkState (feed s1) (history s1)
               (trace s1 ++ ((λ i, EvAddFeed (FeedItem.Title i) (FeedItem.Description i)
                                     (FeedItem.Image i) (FeedItem.Link i)) <$> es))).
Proof.
  intros Hs Hwf. destruct s as [v h tr]; simpl in Hs; subst v.
  destruct (processFeed_Ok allStr f h tr Hwf) as [h' H].
  destruct (all_Some (default [] (normalItems allStr f !! name))) as [es Hes].
  { intros p Hp. destruct (normalItems allStr f !! name) as [bucket|] eqn:Hb;
      [|by apply elem_of_nil in Hp].
    destruct (normalItems_elem allStr f name bucket p Hwf Hb Hp) as (e & -> & _).
    by exists e. }
  eexists _, _, _, es. split; [exact H|]. split; [done|]. split; [done|].
  split; [exact Hes|]. unfold FeedByName. simpl. run.
  destruct (normalItems allStr f !! name) as [bucket|]; simpl in Hes.
  - rewrite Hes. apply forEach_AddFeed.
  - destruct es; [|done]. simpl. by rewrite app_nil_r.
Qed.

End AccessorsAfter.

(** ** The fetch pipeline, end to end *)

Section FetchRuns.
Context `{Ext : Externals}.

Lemma chosenLocale_cases d :
  let d' := if decide (d = "") then en else d in
  (chosenLocale d = d' ∨ chosenLocale d = "fa_IR" ∨ chosenLocale d = "ms_MY") ∧
  (localeEvents d = [] ∨
   localeEvents d = [EvGetCountry (10 * Second)] ∨
   localeEvents d = [EvGetCountry (10 * Second);
                     EvDebugf "Could not lookup country" []]).
Proof.
  unfold chosenLocale, localeEvents, determineLocale. simpl.
  destruct (EqualFold en _); simpl; [|by auto].
  run. destruct (decide (GetCountry (10 * Second) = "")); simpl; [by auto|].
  destruct (EqualFold "ir" (GetCountry (10 * Second))); simpl; [by auto|].
  destruct (EqualFold "my" (GetCountry (10 * Second))); simpl; by auto.
Qed.

Lemma chosenLocale_other d :
  d ≠ "" → EqualFold en d = false → chosenLocale d = d ∧ localeEvents d = [].
Proof.
  intros Hd Hfold. unfold chosenLocale, localeEvents, determineLocale.
  rewrite decide_False by done. by rewrite Hfold.
Qed.

(** X11.  [determineLocale] always returns, with a locale that is not
    empty: the one it was given ([en_US] for the empty one), [fa_IR] or
    [ms_MY].  It leaves [feed] alone and asks the geolocation at most
    once. *)
Theorem determineLocale_result (defaultLocale : string) (s : State) :
  ∃ locale evs,
    determineLocale defaultLocale s =
      Ok locale (mkState (feed s) (history s) (trace s ++ evs)) ∧
    locale ≠ "" ∧
    (locale = defaultLocale ∨ (defaultLocale = "" ∧ locale = en) ∨
     locale = "fa_IR" ∨ locale = "ms_MY") ∧
    (evs = [] ∨
     evs = [EvGetCountry (10 * Second)] ∨
     evs = [EvGetCountry (10 * Second); EvDebugf "Could not lookup country" []]).
Proof.
  exists (chosenLocale defaultLocale), (localeEvents defaultLocale).
  split; [apply determineLocale_run|].
  destruct (chosenLocale_cases defaultLocale) as [Hl Hevs]. simpl in Hl.
  split; [|split; [|exact Hevs]].
  - destruct (decide (defaultLocale = "")); destruct Hl as [Hl|[Hl|Hl]];
      rewrite Hl; done.
  - destruct (decide (defaultLocale = "")); destruct Hl as [Hl|[Hl|Hl]];
      rewrite Hl; auto.
Qed.

(** [doGetFeed] when every step up to the decoding goes through: what is
    left is [processFeed] on the decoded document, under the [defer]. *)
Lemma doGetFeed_decoded feedEndpoint locale allStr proxyAddr v h tr
    req client res gzReader contents f :
  let l := if isSupported locale then locale else en in
  NewRequest "GET" (feedURLOf feedEndpoint l) = Success req →
  clientFor proxyAddr = Success client →
  Do client (requestOf req) = Success res →
  NewReader res = Success gzReader →
  ReadAll gzReader = Success contents →
  Unmarshal contents Feed.zero = (f, None) →
  ∃ h1,
    doGetFeed feedEndpoint locale allStr proxyAddr (mkState v h tr) =
      deferBodyClose (processFeed allStr)
        (mkState (Some f) h1
           (tr ++ localeEvents l ++
              [EvDebugf "Returning feed URL: %v" [LStr (feedURLOf feedEndpoint l)];
               EvDo (requestOf req)])).
Proof.
  intros l Hreq Hclient Hdo Hgz Hread Hparse. unfold doGetFeed.
  rewrite (bind_Ok _ _ _ _ _ (setFeed_run _ _ _ _)).
  replace (if negb (isSupported locale) then en else locale) with l
    by (unfold l; by destruct (isSupported locale)).
  rewrite (bind_Ok _ _ _ _ _ (getFeedURL_run _ _ _)).
  cbn [feed history trace]. unfold clientFor, requestOf in *.
  rewrite Hreq, Hclient. rewrite (bind_Ok _ _ _ _ _ (emit_run _ _ _ _)).
  rewrite Hdo. unfold deferBodyClose. rewrite Hgz, Hread.
  rewrite (bind_Ok _ _ _ _ _ (getFeed_run _ _ _)). rewrite Hparse.
  rewrite (bind_Ok _ _ _ _ _ (setFeed_run _ _ _ _)).
  eexists. by rewrite <- !app_assoc.
Qed.

(** X13.  A fetch in which every step goes through and which decodes a
    well-formed document returns with the normalized document in [feed],
    having logged the URL, made one request (with [Accept-Encoding: gzip]
    added), made the calls of the normalization, and closed the body
    last. *)
Theorem successful_fetch (feedEndpoint locale allStr proxyAddr : string) (s : State)
    req client res gzReader contents (f : Feed.t) :
  let l := if isSupported locale then locale else en in
  NewRequest "GET" (feedURLOf feedEndpoint l) = Success req →
  clientFor proxyAddr = Success client →
  Do client (HeaderAdd req "Accept-Encoding" "gzip") = Success res →
  NewReader res = Success gzReader →
  ReadAll gzReader = Success contents →
  Unmarshal contents Feed.zero = (f, None) →
  wellFormed f = true →
  ∃ s',
    doGetFeed feedEndpoint locale allStr proxyAddr s = Ok tt s' ∧
    feed s' = Some (normalForm allStr f) ∧
    trace s' =
      trace s ++ localeEvents l ++
        [EvDebugf "Returning feed URL: %v" [LStr (feedURLOf feedEndpoint l)];
         EvDo (HeaderAdd req "Accept-Encoding" "gzip")] ++
        processFeedTrace f ++ [EvBodyClose].
Proof.
  intros l Hreq Hclient Hdo Hgz Hread Hparse Hwf. destruct s as [v h tr].
  destruct (doGetFeed_decoded feedEndpoint locale allStr proxyAddr v h tr
              req client res gzReader contents f Hreq Hclient Hdo Hgz Hread Hparse)
    as [h1 ->].
  unfold deferBodyClose.
  match goal with |- context [processFeed allStr (mkState _ ?h0 ?tr0)] =>
    destruct (processFeed_Ok allStr f h0 tr0 Hwf) as [h2 ->]
  end.
  eexists. split; [done|]. split; [done|]. simpl. unfold requestOf.
  by rewrite <- !app_assoc.
Qed.

(** X14.  A fetch that decodes a document on which the normalization
    panics does not go through [handleError]: the panic leaves the decoded
    document in [feed], normalized as far as the run got, with its sources,
    sorted keys and entries; the body has still been closed. *)
Theorem fetch_panic_leaves_document (feedEndpoint locale allStr proxyAddr : string)
    (s : State) req client res gzReader contents (f : Feed.t) :
  let l := if isSupported locale then locale else en in
  NewRequest "GET" (feedURLOf feedEndpoint l) = Success req →
  clientFor proxyAddr = Success client →
  Do client (HeaderAdd req "Accept-Encoding" "gzip") = Success res →
  NewReader res = Success gzReader →
  ReadAll gzReader = Success contents →
  Unmarshal contents Feed.zero = (f, None) →
  wellFormed f = false →
  isOk (doGetFeed feedEndpoint locale allStr proxyAddr s) = false ∧
  ∃ f' evs,
    feed (finalState (doGetFeed feedEndpoint locale allStr proxyAddr s)) = Some f' ∧
    Feed.Feeds f' = Feed.Feeds f ∧ Feed.Sorted f' = Feed.Sorted f ∧
    Forall2 sameEntry (Feed.Entries f) (Feed.Entries f') ∧
    trace (finalState (doGetFeed feedEndpoint locale allStr proxyAddr s)) =
      trace s ++ evs ++ [EvBodyClose].
Proof.
  intros l Hreq Hclient Hdo Hgz Hread Hparse Hwf. destruct s as [v h tr].
  destruct (doGetFeed_decoded feedEndpoint locale allStr proxyAddr v h tr
              req client res gzReader contents f Hreq Hclient Hdo Hgz Hread Hparse)
    as [h1 ->].
  unfold deferBodyClose.
  match goal with |- context [processFeed allStr ?s0] =>
    pose proof (processFeed_Panic allStr f _ _ Hwf : isOk (processFeed allStr s0) = false)
      as HP;
    destruct (keeps_processFeed f allStr s0) as (f' & Hf' & Hfeeds & Hsorted & Hentries);
      [exists f; split; [done|apply frame_refl]|];
    destruct (extending_processFeed allStr s0) as [_ [evs Hevs]];
    destruct (processFeed allStr s0) as [[] s1|flt s1]
  end; [done|].
  split; [done|]. simpl in *.
  exists f', ((localeEvents l ++
                 [EvDebugf "Returning feed URL: %v" [LStr (feedURLOf feedEndpoint l)];
                  EvDo (requestOf req)]) ++ evs).
  repeat split; try done. rewrite Hevs. by rewrite <- !app_assoc.
Qed.

(** The steps of [doGetFeed] up to the request for the URL. *)
Ltac fetch_start l url :=
  unfold doGetFeed;
  rewrite (bind_Ok _ _ _ _ _ (setFeed_run _ _ _ _));
  replace (if negb (isSupported _) then en else _) with l
    by (unfold l; by destruct (isSupported _));
  rewrite (bind_Ok _ _ _ _ _ (getFeedURL_run _ _ _));
  cbn [feed history trace]; unfold clientFor, requestOf, url in *.

(** X15.  What a failed fetch does to the outside, by the step that
    fails.  The URL having been built and logged: a fetch that fails
    before the round trip (building the request, or the proxied client)
    logs the error and does nothing else; one whose round trip fails has
    made the request, logs the error and closes no body, none having come;
    one that fails once the response is there (opening the gzip reader,
    reading the body, decoding it) has made the request, logs the error and
    closes the body, last.  The request carries [Accept-Encoding: gzip],
    the error is the collaborator's, wrapped in the message of the step,
    and [AddSource] is not called. *)
Theorem failed_fetch_trace (feedEndpoint locale allStr proxyAddr : string) (s : State) :
  let l := if isSupported locale then locale else en in
  let url := feedURLOf feedEndpoint l in
  let endsWith (tail : list Event) :=
    ∃ s',
      doGetFeed feedEndpoint locale allStr proxyAddr s = Ok tt s' ∧
      trace s' =
        trace s ++ localeEvents l ++
          EvDebugf "Returning feed URL: %v" [LStr url] :: tail ∧
      addSourceCalls (trace s') = addSourceCalls (trace s) in
  (∀ err,
     NewRequest "GET" url = Failure err →
     endsWith [EvError (Errorf "Error fetching feed: %v" err)]) ∧
  (∀ req err,
     NewRequest "GET" url = Success req →
     proxyAddr ≠ "" → HTTPClient proxyAddr = Failure err →
     endsWith [EvError (Errorf "Error creating client: %v" err)]) ∧
  (∀ req client err,
     NewRequest "GET" url = Success req →
     clientFor proxyAddr = Success client →
     Do client (HeaderAdd req "Accept-Encoding" "gzip") = Failure err →
     endsWith [EvDo (HeaderAdd req "Accept-Encoding" "gzip");
               EvError (Errorf "Error fetching feed: %v" err)]) ∧
  (∀ req client res err,
     NewRequest "GET" url = Success req →
     clientFor proxyAddr = Success client →
     Do client (HeaderAdd req "Accept-Encoding" "gzip") = Success res →
     NewReader res = Failure err →
     endsWith [EvDo (HeaderAdd req "Accept-Encoding" "gzip");
               EvError (Errorf "Unable to open gzip reader: %s" err);
               EvBodyClose]) ∧
  (∀ req client res gzReader err,
     NewRequest "GET" url = Success req →
     clientFor proxyAddr = Success client →
     Do client (HeaderAdd req "Accept-Encoding" "gzip") = Success res →
     NewReader res = Success gzReader →
     ReadAll gzReader = Failure err →
     endsWith [EvDo (HeaderAdd req "Accept-Encoding" "gzip");
               EvError (Errorf "Error reading feed: %v" err);
               EvBodyClose]) ∧
  (∀ req client res gzReader contents partial err,
     NewRequest "GET" url = Success req →
     clientFor proxyAddr = Success client →
     Do client (HeaderAdd req "Accept-Encoding" "gzip") = Success res →
     NewReader res = Success gzReader →
     ReadAll gzReader = Success contents →
     Unmarshal contents Feed.zero = (partial, Some err) →
     endsWith [EvDo (HeaderAdd req "Accept-Encoding" "gzip");
               EvError (Errorf "Error parsing feed: %v" err);
               EvBodyClose]).
Proof.
  intros l url endsWith. subst endsWith. cbv beta. destruct s as [v h tr].
  assert (addSourceCalls (localeEvents l) = []) as Hquiet.
  { by destruct (chosenLocale_cases l) as [_ [-> | [-> | ->]]]. }
  assert (∀ s' tail,
            addSourceCalls tail = [] →
            trace s' = (tr ++ localeEvents l ++
                          [EvDebugf "Returning feed URL: %v"
                             [LStr (feedURLOf feedEndpoint l)]]) ++ tail →
            trace s' = tr ++ localeEvents l ++
                         EvDebugf "Returning feed URL: %v"
                           [LStr (feedURLOf feedEndpoint l)] :: tail ∧
            addSourceCalls (trace s') = addSourceCalls tr) as Hends.
  { intros s' tail Htail ->. split; [by rewrite <- !app_assoc|].
    rewrite !addSourceCalls_app, Hquiet, Htail. simpl. by rewrite !app_nil_r. }
  split; [|split; [|split; [|split; [|split]]]].
  - intros err Hreq. fetch_start l url. rewrite Hreq, handleError_run.
    eexists. split; [done|]. by apply Hends.
  - intros req err Hreq Hproxy Hclient. fetch_start l url.
    rewrite Hreq, decide_False by done. rewrite Hclient, handleError_run.
    eexists. split; [done|]. by apply Hends.
  - intros req client err Hreq Hclient Hdo. fetch_start l url.
    rewrite Hreq, Hclient. rewrite (bind_Ok _ _ _ _ _ (emit_run _ _ _ _)).
    rewrite Hdo, handleError_run.
    eexists. split; [done|]. apply Hends; [done|]. cbn [trace].
    by rewrite <- !app_assoc.
  - intros req client res err Hreq Hclient Hdo Hgz. fetch_start l url.
    rewrite Hreq, Hclient. rewrite (bind_Ok _ _ _ _ _ (emit_run _ _ _ _)).
    rewrite Hdo. unfold deferBodyClose. rewrite Hgz, handleError_run.
    eexists. split; [done|]. apply Hends; [done|]. cbn [trace].
    by rewrite <- !app_assoc.
  - intros req client res gz err Hreq Hclient Hdo Hgz Hread. fetch_start l url.
    rewrite Hreq, Hclient. rewrite (bind_Ok _ _ _ _ _ (emit_run _ _ _ _)).
    rewrite Hdo. unfold deferBodyClose. rewrite Hgz, Hread, handleError_run.
    eexists. split; [done|]. apply Hends; [done|]. cbn [trace].
    by rewrite <- !app_assoc.
  - intros req client res gz contents partial err Hreq Hclient Hdo Hgz Hread Hparse.
    fetch_start l url.
    rewrite Hreq, Hclient. rewrite (bind_Ok _ _ _ _ _ (emit_run _ _ _ _)).
    rewrite Hdo. unfold deferBodyClose. rewrite Hgz, Hread.
    rewrite (bind_Ok _ _ _ _ _ (getFeed_run _ _ _)). rewrite Hparse.
    rewrite (bind_Ok _ _ _ _ _ (setFeed_run _ _ _ _)).
    rewrite handleError_run.
    eexists. split; [done|]. apply Hends; [done|]. cbn [trace].
    by rewrite <- !app_assoc.
Qed.

(** X17.  A supported locale that does not fold to [en_US] is the locale
    of the URL: the fetch starts by logging the endpoint formatted with it,
    without a geolocation lookup before. *)
Theorem supported_locale_used (feedEndpoint locale allStr proxyAddr : string)
    (s : State) :
  isSupported locale = true →
  EqualFold en locale = false →
  ∃ later,
    trace (finalState (doGetFeed feedEndpoint locale allStr proxyAddr s)) =
      trace s ++
        EvDebugf "Returning feed URL: %v" [LStr (Sprintf feedEndpoint locale)] :: later.
Proof.
  intros Hsup Hfold. destruct s as [v h tr].
  destruct (doGetFeed_start feedEndpoint locale allStr proxyAddr v h tr)
    as [_ [later Ht]].
  rewrite Hsup in Ht.
  assert (locale ≠ "") as Hne by (intros ->; discriminate Hsup).
  destruct (chosenLocale_other locale Hne Hfold) as [Hl Hevs].
  unfold feedURLOf in Ht. rewrite Hl, Hevs in Ht.
  exists later. simpl in *. rewrite Ht. by rewrite <- app_assoc.
Qed.

End FetchRuns.

(** ** The package on concrete documents *)

(** *** Normalization *)

(** C1 at a document whose only entry names a source that is not there. *)
Lemma all_tab_unknown_source_witness :
  faultOf (processFeed (Ext := world (goodFetch "")) "All" (mkState (Some orphanFeed) [] []))
  = Some NilDereference.
Proof.
  apply (all_tab_unknown_source (Ext := world (goodFetch "")) "All"
           (mkState (Some orphanFeed) [] []) orphanFeed orphanEntry).
  - reflexivity.
  - vm_compute; reflexivity.
  - apply list_elem_of_singleton; reflexivity.
  - vm_compute; reflexivity.
Defined.

(** C2 as the specification states it fails: an index of 99 into three
    entries is not skipped, [processFeed] panics on it. *)
Lemma out_of_range_index_panics :
  faultOf (processFeed (Ext := world (goodFetch "")) "All"
             (mkState (Some outOfRangeFeed) [] []))
  = Some (IndexOutOfRange 99 3).
Proof. vm_compute; reflexivity. Qed.

(** C2 as the code has it.  On the sample document the bucket "BBC" is
    there and lists the entries 2, 0, 1 in that order; on the document with
    the indices 0 and 99 the run stops with index out of range, and leaves
    buckets behind. *)
Lemma per_source_buckets_witness :
  (∃ s' f' items,
     processFeed (Ext := world (goodFetch "")) "All" (mkState (Some sampleFeed) [] [])
       = Ok tt s' ∧
     feed s' = Some f' ∧ Feed.Items f' = Some items ∧
     Forall2 (λ i p, (0 ≤ i)%Z ∧ Feed.Entries f' !! Z.to_nat i = Some p)
       [2; 0; 1]%Z (default [] (items !! "BBC"))) ∧
  (∃ j s' f',
     processFeed (Ext := world (goodFetch "")) "All" (mkState (Some halfIndexedFeed) [] [])
       = Panic (IndexOutOfRange j 3) s' ∧
     feed s' = Some f' ∧ is_Some (Feed.Items f')).
Proof.
  split.
  - destruct (per_source_buckets (Ext := world (goodFetch "")) "All"
                (mkState (Some sampleFeed) [] []) sampleFeed eq_refl) as [H _].
    destruct (H ltac:(vm_compute; reflexivity))
      as (s' & f' & items & Hrun & Hfeed & Hitems & Hb).
    exists s', f', items. repeat split; try assumption.
    apply (Hb "bbc" (Source.mk "https://example.org/bbc.xml" "BBC"
                       "https://example.org/bbc" false [2; 0; 1]%Z)).
    + vm_compute; reflexivity.
    + discriminate.
    + intros key' src' Hkey' Htitle. unfold sampleFeed in Hkey'. simpl in Hkey'.
      repeat (apply lookup_insert_Some in Hkey' as [[<- Hsrc]|[_ Hkey']];
              [injection Hsrc as <-; try reflexivity; discriminate Htitle|]).
      apply lookup_singleton_Some in Hkey' as [<- Hsrc].
      injection Hsrc as <-. discriminate Htitle.
  - destruct (per_source_buckets (Ext := world (goodFetch "")) "All"
                (mkState (Some halfIndexedFeed) [] []) halfIndexedFeed eq_refl)
      as [_ [H _]].
    destruct (H ltac:(vm_compute; reflexivity) ltac:(vm_compute; reflexivity))
      with (key := "bbc")
           (src := Source.mk "https://example.org/bbc.xml" "BBC"
                     "https://example.org/bbc" false [0; 99]%Z)
           (i := 99%Z)
      as (visited & key' & src' & after & ok & j & rest & s' & f'
          & _ & _ & _ & _ & _ & Hrun & _ & Hfeed & _ & Hitems).
    + intros key Hkey. unfold halfIndexedFeed in Hkey. simpl in Hkey.
      apply lookup_singleton_Some in Hkey as [_ Hsrc]. discriminate Hsrc.
    + vm_compute; reflexivity.
    + apply elem_of_cons. right. apply elem_of_cons. left. reflexivity.
    + right. simpl. lia.
    + exists j, s', f'. split; [exact Hrun|]. split; [exact Hfeed|].
      rewrite Hitems. eexists; reflexivity.
Defined.

(** The same run, carried out: the fault is at the index 99, and by then
    the entry at the index 0 is in the "all" tab and in the bucket "BBC". *)
Lemma out_of_range_index_after_one_in_range :
  let o := processFeed (Ext := world (goodFetch "")) "All"
             (mkState (Some halfIndexedFeed) [] []) in
  faultOf o = Some (IndexOutOfRange 99 3) ∧
  ∃ f items,
    feed (finalState o) = Some f ∧ Feed.Items f = Some items ∧
    (λ p : ptr FeedItem.t, FeedItem.Title <$> p) <$> default [] (items !! "All") =
      [Some "a"; Some "b"; Some "c"] ∧
    (λ p : ptr FeedItem.t, FeedItem.Title <$> p) <$> default [] (items !! "BBC") =
      [Some "a"].
Proof.
  split; [vm_compute; reflexivity|].
  eexists _, _. split; [vm_compute; reflexivity|]. split; [reflexivity|].
  split; vm_compute; reflexivity.
Qed.

(** C5 on the sample document: a description that is trimmed, one that
    trims to nothing, and one that is absent. *)
Lemma description_derivation_witness :
  ∃ s' f',
    processFeed (Ext := world (goodFetch "")) "All" (mkState (Some sampleFeed) [] [])
      = Ok tt s' ∧
    feed s' = Some f' ∧
    FeedItem.Description <$> (Feed.Entries f' !! 0 ≫= id) = Some "A summary" ∧
    FeedItem.Description <$> (Feed.Entries f' !! 1 ≫= id) = Some "second" ∧
    FeedItem.Description <$> (Feed.Entries f' !! 2 ≫= id) = Some "third".
Proof.
  destruct (description_derivation (Ext := world (goodFetch "")) "All"
              (mkState (Some sampleFeed) [] []) sampleFeed eq_refl
              ltac:(vm_compute; reflexivity)) as (s' & f' & Hrun & Hfeed & _ & He).
  exists s', f'. split; [assumption|]. split; [assumption|].
  destruct (He 0 _ eq_refl) as (e0 & -> & _ & H0 & _).
  destruct (He 1 _ eq_refl) as (e1 & -> & _ & _ & H1 & _).
  destruct (He 2 _ eq_refl) as (e2 & -> & _ & _ & _ & H2).
  simpl. rewrite (H0 "  A summary  " eq_refl ltac:(discriminate)).
  rewrite (H1 "   " eq_refl eq_refl).
  rewrite (H2 (or_introl eq_refl)).
  repeat split; reflexivity.
Defined.

(** C9 on the sample document: of the keys bbc, gone, untitled, ads only
    the first and the last give a call. *)
Lemma source_listing_witness :
  ∃ s',
    processFeed (Ext := world (goodFetch "")) "All" (mkState (Some sampleFeed) [] [])
      = Ok tt s' ∧
    addSourceCalls (trace s') = ["BBC"; "Sponsored"].
Proof.
  destruct (source_listing (Ext := world (goodFetch "")) "All"
              (mkState (Some sampleFeed) [] []) sampleFeed eq_refl
              ltac:(vm_compute; reflexivity)) as (s' & Hrun & Hcalls).
  exists s'. split; [assumption|]. rewrite Hcalls. vm_compute; reflexivity.
Defined.

(** C10 on a document whose entry has the number 42 as its description. *)
Lemma description_type_assertion_witness :
  faultOf (processFeed (Ext := world (goodFetch "")) "All" (mkState (Some numberFeed) [] []))
  = Some (TypeAssertion (ifloat64 "42")).
Proof.
  apply (description_type_assertion (Ext := world (goodFetch "")) "All"
           (mkState (Some numberFeed) [] []) numberFeed [] [] numberEntry).
  - reflexivity.
  - reflexivity.
  - reflexivity.
  - vm_compute; reflexivity.
  - discriminate.
  - discriminate.
Defined.

(** *** Locale and fetch *)

(** C7 in a process that the geolocation places in Iran. *)
Lemma determineLocale_spec_witness :
  determineLocale (Ext := world unreachableFetch) "en_US" initial =
    Ok "fa_IR" (mkState None [] [EvGetCountry 10000000000]) ∧
  determineLocale (Ext := world unreachableFetch) "zh_CN" initial = Ok "zh_CN" initial.
Proof.
  split.
  - destruct (determineLocale_spec (Ext := world unreachableFetch) "en_US" initial)
      as [_ H].
    destruct (H ltac:(discriminate)) as [_ H'].
    destruct (H' eq_refl) as (_ & Hir & _).
    exact (Hir ltac:(discriminate) eq_refl).
  - destruct (determineLocale_spec (Ext := world unreachableFetch) "zh_CN" initial)
      as [_ H].
    destruct (H ltac:(discriminate)) as [H' _].
    exact (H' eq_refl).
Defined.

(** C6 as the specification states it fails: "xx" is not a supported
    locale, and from Iran the URL that is requested is that of [fa_IR]. *)
Lemma unsupported_locale_fetches_fa_IR :
  isSupported "xx" = false ∧
  trace (finalState (doGetFeed (Ext := world unreachableFetch) defaultFeedEndpoint
                       "xx" "All" "" initial)) =
    [ EvGetCountry 10000000000;
      EvDebugf "Returning feed URL: %v"
        [LStr "https://feeds.getiantem.org/fa_IR/feed.json"];
      EvDo (mkRequest "GET" "https://feeds.getiantem.org/fa_IR/feed.json"
              [("Accept-Encoding", "gzip")]);
      EvError (Errorf "Error fetching feed: %v" (ExternalError "connection refused")) ].
Proof. split; vm_compute; reflexivity. Qed.

(** C6 as the code has it, for the locale "xx". *)
Lemma unsupported_locale_defaults_witness :
  doGetFeed (Ext := world unreachableFetch) defaultFeedEndpoint "xx" "All" "" initial =
  doGetFeed (Ext := world unreachableFetch) defaultFeedEndpoint "en_US" "All" "" initial.
Proof.
  exact (proj1 (unsupported_locale_defaults (Ext := world unreachableFetch)
                  defaultFeedEndpoint "xx" "All" "" initial eq_refl)).
Defined.

(** C3: the sample document is in [feed], and the next fetch brings a body
    that is not JSON. *)
Lemma failed_fetch_clears_feed_witness :
  (∃ f, feed populated = Some f) ∧
  ∃ s',
    doGetFeed (Ext := world malformedFetch) defaultFeedEndpoint "en_US" "All" "" populated
      = Ok tt s' ∧
    feed s' = None ∧
    CurrentFeed s' = Ok None s'.
Proof.
  split; [eexists; vm_compute; reflexivity|].
  apply (failed_fetch_clears_feed (Ext := world malformedFetch)).
  eapply (@ParseFailed (world malformedFetch)); reflexivity.
Defined.

(** C4 as the specification states it fails: one of the values [feed]
    takes during a fetch that succeeds is the empty document, which is
    neither nil nor a normalized document. *)
Lemma reader_sees_unfinished_document :
  ¬ (∀ v,
       v ∈ history (finalState (doGetFeed (Ext := world (goodFetch "")) defaultFeedEndpoint
                                  "en_US" "All" "" initial)) →
       v = None ∨
       ∃ f, wellFormed f = true ∧ v = Some (normalForm (Ext := world (goodFetch "")) "All" f)).
Proof.
  intros H. destruct (H (Some Feed.zero)) as [Hnil|(f & _ & Hf)].
  - apply list_elem_of_lookup. exists 0. vm_compute; reflexivity.
  - discriminate Hnil.
  - unfold normalForm, Feed.zero in Hf. discriminate Hf.
Qed.

(** C4 as the code has it, on a fetch of the sample document. *)
Lemma fetch_builds_in_place_witness :
  feed populated = None ∨
  ∃ f, wellFormed f = true ∧
       feed populated = Some (normalForm (Ext := world (goodFetch "")) "All" f).
Proof.
  exact (proj2 (fetch_builds_in_place (Ext := world (goodFetch "")) defaultFeedEndpoint
                  "en_US" "All" "" initial) ltac:(vm_compute; reflexivity)).
Defined.

(** *** The accessors *)

(** C8 before any fetch, and after the fetch of the sample document. *)
Lemma FeedByName_spec_witness :
  FeedByName "BBC" initial = Ok tt initial ∧
  FeedByName "Sponsored"
    (mkState (feed populated) [] []) =
    Ok tt (mkState (feed populated) []
             [EvAddFeed "c" "third" "" "https://example.org/c"]).
Proof.
  split.
  - apply (proj1 (FeedByName_spec "BBC" initial)).
    left; reflexivity.
  - destruct (feed populated) as [f|] eqn:Hf; [|vm_compute in Hf; discriminate Hf].
    destruct (Feed.Items f) as [m|] eqn:Hm;
      [|vm_compute in Hf; injection Hf as <-; discriminate Hm].
    apply (proj2 (FeedByName_spec "Sponsored"
                    (mkState (Some f) [] [])) f m
             [FeedItem.withDescription (item "c" "third" "ads" ∅) "third"]
             eq_refl Hm).
    vm_compute in Hf. injection Hf as <-. simpl in Hm. injection Hm as <-.
    vm_compute; reflexivity.
Defined.

(** *** More of the normalization *)

(** X1 on the sample document, which [processFeed] runs through. *)
Lemma processFeed_completes_iff_witness :
  (∀ p, p ∈ Feed.Entries sampleFeed →
     ∃ e, p = Some e ∧
          (FeedItem.Meta e !! "description" = None ∨
           FeedItem.Meta e !! "description" = Some inil ∨
           ∃ str, FeedItem.Meta e !! "description" = Some (istring str)) ∧
          ∃ src, Feed.Feeds sampleFeed !! FeedItem.Source e = Some (Some src)) ∧
  (∀ key p, Feed.Feeds sampleFeed !! key = Some p →
     ∃ src, p = Some src ∧
            ∀ i, i ∈ Source.Entries src →
                 (0 ≤ i < Z.of_nat (length (Feed.Entries sampleFeed)))%Z).
Proof.
  exact (proj1 (processFeed_completes_iff (Ext := world (goodFetch "")) "All"
                  (mkState (Some sampleFeed) [] []) sampleFeed eq_refl)
           ltac:(vm_compute; reflexivity)).
Defined.

(** X2 on the sample document: the bucket "BBC". *)
Lemma buckets_by_title_witness :
  ∃ s' f' items,
    processFeed (Ext := world (goodFetch "")) "All" (mkState (Some sampleFeed) [] [])
      = Ok tt s' ∧
    feed s' = Some f' ∧ Feed.Items f' = Some items ∧
    default [] (items !! "BBC") =
      appended (Feed.Entries f') "BBC" (map_to_list (Feed.Feeds sampleFeed)).
Proof.
  destruct (buckets_by_title (Ext := world (goodFetch "")) "All"
              (mkState (Some sampleFeed) [] []) sampleFeed eq_refl
              ltac:(vm_compute; reflexivity))
    as (s' & f' & items & Hrun & Hfeed & Hitems & Hb).
  exists s', f', items. repeat split; try assumption. exact (Hb "BBC").
Defined.

(** X3 on the sample document: there is a bucket "All", and none for the
    source without a title, which lists no entry. *)
Lemma bucket_names_witness :
  ∃ s' f' items,
    processFeed (Ext := world (goodFetch "")) "All" (mkState (Some sampleFeed) [] [])
      = Ok tt s' ∧
    feed s' = Some f' ∧ Feed.Items f' = Some items ∧
    is_Some (items !! "All").
Proof.
  destruct (bucket_names (Ext := world (goodFetch "")) "All"
              (mkState (Some sampleFeed) [] []) sampleFeed eq_refl
              ltac:(vm_compute; reflexivity))
    as (s' & f' & items & Hrun & Hfeed & Hitems & Hb).
  exists s', f', items. repeat split; try assumption.
  apply (proj2 (Hb "All")). left; reflexivity.
Defined.

(** X4 on the sample document. *)
Lemma bucket_entries_witness :
  ∃ s' f' items,
    processFeed (Ext := world (goodFetch "")) "All" (mkState (Some sampleFeed) [] [])
      = Ok tt s' ∧
    feed s' = Some f' ∧ Feed.Items f' = Some items ∧
    ∀ title bucket p,
      items !! title = Some bucket → p ∈ bucket →
      ∃ e, p = Some e ∧ Some e ∈ Feed.Entries f'.
Proof.
  exact (bucket_entries (Ext := world (goodFetch "")) "All"
           (mkState (Some sampleFeed) [] []) sampleFeed eq_refl
           ltac:(vm_compute; reflexivity)).
Defined.

(** X5 on the document with the index 99, on which [processFeed] panics. *)
Lemma processFeed_frame_witness :
  ∃ f',
    feed (finalState (processFeed (Ext := world (goodFetch "")) "All"
                        (mkState (Some outOfRangeFeed) [] []))) = Some f' ∧
    Feed.Feeds f' = Feed.Feeds outOfRangeFeed ∧
    Feed.Sorted f' = Feed.Sorted outOfRangeFeed ∧
    Forall2 sameEntry (Feed.Entries outOfRangeFeed) (Feed.Entries f').
Proof.
  exact (processFeed_frame (Ext := world (goodFetch "")) "All"
           (mkState (Some outOfRangeFeed) [] []) outOfRangeFeed eq_refl).
Defined.

(** X6 on the sample document, started with a bucket left from before. *)
Lemma stale_buckets_dropped_witness :
  ∃ s1 s2,
    processFeed (Ext := world (goodFetch "")) "All" (mkState (Some sampleFeed) [] [])
      = Ok tt s1 ∧
    processFeed (Ext := world (goodFetch "")) "All"
      (mkState (Some (Feed.withItems sampleFeed (Some {[ "Old" := sampleEntries ]}))) [] [])
      = Ok tt s2 ∧
    is_Some (feed s1) ∧ feed s2 = feed s1.
Proof.
  exact (stale_buckets_dropped (Ext := world (goodFetch "")) "All"
           (mkState (Some sampleFeed) [] []) sampleFeed
           (Some {[ "Old" := sampleEntries ]}) eq_refl ltac:(vm_compute; reflexivity)).
Defined.

(** X7 on the sample document, whose sources have three titles: the second
    run visits the sources backwards and leaves the document as it was. *)
Lemma processFeed_idempotent_witness :
  ∃ s1 s2,
    processFeed (Ext := world (goodFetch "")) "All" (mkState (Some sampleFeed) [] [])
      = Ok tt s1 ∧
    processFeed (Ext := backwards (goodFetch "")) "All" s1 = Ok tt s2 ∧
    is_Some (feed s1) ∧ feed s2 = feed s1.
Proof.
  destruct (processFeed_idempotent (Ext := world (goodFetch "")) "All"
              (mkState (Some sampleFeed) [] []) sampleFeed (backwards (goodFetch ""))
              eq_refl eq_refl ltac:(vm_compute; reflexivity))
    as (s1 & s2 & f1 & f2 & items1 & items2 & Hrun1 & Hrun2 & Hf1 & Hf2 & _ & _
        & _ & _ & _ & _ & _ & Hsame & _).
  exists s1, s2. split; [exact Hrun1|]. split; [exact Hrun2|].
  rewrite Hf1, Hf2. split; [eexists; reflexivity|]. f_equal. apply Hsame.
  intros key1 key2 src1 src2 H1 H2 Ht.
  unfold sampleFeed in H1, H2. simpl in H1, H2.
  rewrite !lookup_insert_Some, lookup_singleton_Some in H1.
  rewrite !lookup_insert_Some, lookup_singleton_Some in H2.
  destruct H1 as [[<- H1]|[_ [[<- H1]|[_ [<- H1]]]]]; injection H1 as <-;
    destruct H2 as [[<- H2]|[_ [[<- H2]|[_ [<- H2]]]]]; injection H2 as <-;
    first [reflexivity | discriminate Ht].
Defined.

(** With a title that two sources share the order of the second run shows:
    the bucket comes out in another order. *)
Lemma second_run_can_reorder :
  ∃ s1 s2 f1 f2 items1 items2,
    processFeed (Ext := world (goodFetch "")) "All"
      (mkState (Some sharedTitleFeed) [] []) = Ok tt s1 ∧
    processFeed (Ext := backwards (goodFetch "")) "All" s1 = Ok tt s2 ∧
    feed s1 = Some f1 ∧ feed s2 = Some f2 ∧
    Feed.Items f1 = Some items1 ∧ Feed.Items f2 = Some items2 ∧
    (λ p : ptr FeedItem.t, FeedItem.Title <$> p) <$> default [] (items1 !! "Dup") =
      [Some "b"; Some "a"] ∧
    (λ p : ptr FeedItem.t, FeedItem.Title <$> p) <$> default [] (items2 !! "Dup") =
      [Some "a"; Some "b"].
Proof.
  eexists _, _, _, _, _, _.
  split; [vm_compute; reflexivity|]. split; [vm_compute; reflexivity|].
  split; [reflexivity|]. split; [reflexivity|].
  split; [reflexivity|]. split; [reflexivity|].
  split; vm_compute; reflexivity.
Qed.

(** *** More of the accessors *)

(** X9 before any fetch, and on the sample document. *)
Lemma NumFeedEntries_spec_witness :
  NumFeedEntries initial = Panic NilDereference initial ∧
  NumFeedEntries (mkState (Some sampleFeed) [] []) =
    Ok 3 (mkState (Some sampleFeed) [] [EvDebugf "Number of feed entries: %d" [LInt 3]]).
Proof.
  split.
  - exact (proj1 (NumFeedEntries_spec (Ext := world (goodFetch "")) initial) eq_refl).
  - exact (proj1 (proj2 (NumFeedEntries_spec (Ext := world (goodFetch ""))
                           (mkState (Some sampleFeed) [] [])))
             sampleFeed eq_refl).
Defined.

(** X10 on the sample document, for a name that has no bucket. *)
Lemma FeedByName_after_processFeed_witness :
  ∃ s1 f' buckets (es : list FeedItem.t),
    processFeed (Ext := world (goodFetch "")) "All" (mkState (Some sampleFeed) [] [])
      = Ok tt s1 ∧
    feed s1 = Some f' ∧ Feed.Items f' = Some buckets ∧
    default [] (buckets !! "NYT") = Some <$> es ∧
    FeedByName "NYT" s1 =
      Ok tt (mkState (feed s1) (history s1)
               (trace s1 ++ ((λ i, EvAddFeed (FeedItem.Title i) (FeedItem.Description i)
                                     (FeedItem.Image i) (FeedItem.Link i)) <$> es))).
Proof.
  exact (FeedByName_after_processFeed (Ext := world (goodFetch "")) "All" "NYT"
           (mkState (Some sampleFeed) [] []) sampleFeed eq_refl
           ltac:(vm_compute; reflexivity)).
Defined.

(** *** More of the fetch *)

(** X13 on a fetch of the sample document. *)
Lemma successful_fetch_witness :
  ∃ s',
    doGetFeed (Ext := world (goodFetch "")) defaultFeedEndpoint "en_US" "All" "" initial
      = Ok tt s' ∧
    feed s' = Some (normalForm (Ext := world (goodFetch "")) "All" sampleFeed).
Proof.
  destruct (successful_fetch (Ext := world (goodFetch "")) defaultFeedEndpoint
              "en_US" "All" "" initial
              (mkRequest "GET" "https://feeds.getiantem.org/en_US/feed.json" [])
              "" tt tt [] sampleFeed
              eq_refl eq_refl eq_refl eq_refl eq_refl eq_refl
              ltac:(vm_compute; reflexivity))
    as (s' & Hrun & Hfeed & _).
  exists s'. split; assumption.
Defined.

(** X14 on a fetch of the document with the index 99. *)
Lemma fetch_panic_leaves_document_witness :
  isOk (doGetFeed (Ext := world badIndexFetch) defaultFeedEndpoint "en_US" "All" ""
          initial) = false ∧
  ∃ f',
    feed (finalState (doGetFeed (Ext := world badIndexFetch) defaultFeedEndpoint "en_US"
                        "All" "" initial)) = Some f' ∧
    Feed.Feeds f' = Feed.Feeds outOfRangeFeed.
Proof.
  destruct (fetch_panic_leaves_document (Ext := world badIndexFetch) defaultFeedEndpoint
              "en_US" "All" "" initial
              (mkRequest "GET" "https://feeds.getiantem.org/en_US/feed.json" [])
              "" tt tt [] outOfRangeFeed
              eq_refl eq_refl eq_refl eq_refl eq_refl eq_refl
              ltac:(vm_compute; reflexivity))
    as (Hpanic & f' & evs & Hfeed & Hfeeds & _).
  split; [assumption|]. exists f'. split; assumption.
Defined.

(** X15 on a fetch that does not get through, which closes no body, and
    on one whose body is not JSON, which closes it. *)
Lemma failed_fetch_trace_witness :
  (∃ s',
     doGetFeed (Ext := world unreachableFetch) defaultFeedEndpoint "fa" "All" "" initial
       = Ok tt s' ∧
     trace s' =
       [ EvDebugf "Returning feed URL: %v"
           [LStr "https://feeds.getiantem.org/fa/feed.json"];
         EvDo (mkRequest "GET" "https://feeds.getiantem.org/fa/feed.json"
                 [("Accept-Encoding", "gzip")]);
         EvError (Errorf "Error fetching feed: %v" (ExternalError "connection refused")) ]) ∧
  (∃ s',
     doGetFeed (Ext := world malformedFetch) defaultFeedEndpoint "fa" "All" "" initial
       = Ok tt s' ∧
     trace s' =
       [ EvDebugf "Returning feed URL: %v"
           [LStr "https://feeds.getiantem.org/fa/feed.json"];
         EvDo (mkRequest "GET" "https://feeds.getiantem.org/fa/feed.json"
                 [("Accept-Encoding", "gzip")]);
         EvError (Errorf "Error parsing feed: %v"
                    (ExternalError "invalid character '<' looking for beginning of value"));
         EvBodyClose ]).
Proof.
  split.
  - destruct (failed_fetch_trace (Ext := world unreachableFetch) defaultFeedEndpoint
                "fa" "All" "" initial) as (_ & _ & H & _).
    destruct (H (mkRequest "GET" "https://feeds.getiantem.org/fa/feed.json" []) ""
                (ExternalError "connection refused") eq_refl eq_refl eq_refl)
      as (s' & Hrun & Htrace & _).
    exists s'. split; [exact Hrun|exact Htrace].
  - destruct (failed_fetch_trace (Ext := world malformedFetch) defaultFeedEndpoint
                "fa" "All" "" initial) as (_ & _ & _ & _ & _ & H).
    destruct (H (mkRequest "GET" "https://feeds.getiantem.org/fa/feed.json" []) ""
                tt tt [] Feed.zero
                (ExternalError "invalid character '<' looking for beginning of value")
                eq_refl eq_refl eq_refl eq_refl eq_refl eq_refl)
      as (s' & Hrun & Htrace & _).
    exists s'. split; [exact Hrun|exact Htrace].
Defined.

(** X17 on a fetch for [fa], from Iran. *)
Lemma supported_locale_used_witness :
  ∃ later,
    trace (finalState (doGetFeed (Ext := world unreachableFetch) defaultFeedEndpoint
                         "fa" "All" "" initial)) =
      EvDebugf "Returning feed URL: %v" [LStr "https://feeds.getiantem.org/fa/feed.json"]
      :: later.
Proof.
  exact (supported_locale_used (Ext := world unreachableFetch) defaultFeedEndpoint
           "fa" "All" "" initial eq_refl eq_refl).
Defined.

(** X18 on the sample document: the "all" tab is there and leaves out the
    entry of the excluded source. *)
Lemma all_tab_resolved_witness :
  ∃ s' f' items all,
    processFeed (Ext := world (goodFetch "")) "All" (mkState (Some sampleFeed) [] [])
      = Ok tt s' ∧
    feed s' = Some f' ∧ Feed.Items f' = Some items ∧ items !! "All" = Some all ∧
    all `sublist_of` Feed.Entries f' ∧
    ∀ e, Some e ∈ all ↔
         Some e ∈ Feed.Entries f' ∧
         ∃ src, Feed.Feeds sampleFeed !! FeedItem.Source e = Some (Some src) ∧
                Source.ExcludeFromAll src = false.
Proof.
  apply (all_tab_resolved (Ext := world (goodFetch "")) "All"
           (mkState (Some sampleFeed) [] []) sampleFeed eq_refl
           ltac:(vm_compute; reflexivity)).
  intros key src Hkey. unfold sampleFeed in Hkey. simpl in Hkey.
  repeat (apply lookup_insert_Some in Hkey as [[_ Hsrc]|[_ Hkey]];
          [injection Hsrc as <-; discriminate|]).
  apply lookup_singleton_Some in Hkey as [_ Hsrc].
  injection Hsrc as <-. discriminate.
Defined.
